(** * A gap buffer over a resizable array

    Shallow embedding of [gap_buffer<T>] (gap_buffer.hpp).  The backing
    store [std::vector<T>] is a [list T]; the gap, a
    [std::ranges::subrange] of iterators into the store, is the pair of
    offsets that [gap_id()] computes from it.  Offsets and counts are
    [int64_t] in the source and [Z] here.  Offsets computed from the store
    are bounded by its length; the negation of a count handed in by the
    caller is not, and is written [neg64] with its wrap-around.

    Element accesses are checked: an operation returns [None] when the
    source would fail its [assert] or dereference an iterator outside the
    store (undefined behaviour in C++). *)

From Stdlib Require Import ZArith Lia Ascii String.
From stdpp Require Import base option list.

#[local] Open Scope Z_scope.

(** ** Negation in [int64_t] *)

Definition INT64_MIN : Z := - 2 ^ 63.

Definition INT64_MAX : Z := 2 ^ 63 - 1.

(** [-x] for an [int64_t]: every value but [INT64_MIN] has its negation
    in range; [-INT64_MIN] wraps around to [INT64_MIN]. *)
Definition neg64 (x : Z) : Z :=
  if decide (x = INT64_MIN) then INT64_MIN else - x.

(** ** Checked element access and the copy algorithms *)

Section Algorithms.
Context {T : Type}.

(** [*(b.begin() + i)] as an rvalue. *)
Definition rd (b : list T) (i : Z) : option T :=
  if decide (0 <= i) then b !! Z.to_nat i else None.

(** [*(b.begin() + i) = x]. *)
Definition wr (b : list T) (i : Z) (x : T) : option (list T) :=
  if decide (0 <= i < Z.of_nat (length b))
  then Some (<[Z.to_nat i := x]> b) else None.

(** The loop of [std::copy]: [n] times [*out++ = *first++]. *)
Fixpoint copy_loop (n : nat) (first out : Z) (b : list T) : option (list T) :=
  match n with
  | O => Some b
  | S n' =>
      x ← rd b first;
      b' ← wr b out x;
      copy_loop n' (first + 1) (out + 1) b'
  end.

(** [std::ranges::copy(first, last, out)] inside one store; [last]
    before [first] is not a range. *)
Definition copy (first last out : Z) (b : list T) : option (list T) :=
  if decide (first <= last)
  then copy_loop (Z.to_nat (last - first)) first out b
  else None.

(** The loop of [std::copy_backward]: [n] times [*--d_last = *--last]. *)
Fixpoint copy_backward_loop (n : nat) (last d_last : Z) (b : list T)
  : option (list T) :=
  match n with
  | O => Some b
  | S n' =>
      x ← rd b (last - 1);
      b' ← wr b (d_last - 1) x;
      copy_backward_loop n' (last - 1) (d_last - 1) b'
  end.

(** [std::ranges::copy_backward(first, last, d_last)] inside one store. *)
Definition copy_backward (first last d_last : Z) (b : list T)
  : option (list T) :=
  if decide (first <= last)
  then copy_backward_loop (Z.to_nat (last - first)) last d_last b
  else None.

(** [std::ranges::copy(data, b.begin() + out)] for a range [data] that
    does not alias the store. *)
Fixpoint copy_from (data : list T) (out : Z) (b : list T) : option (list T) :=
  match data with
  | [] => Some b
  | x :: data' => b' ← wr b out x; copy_from data' (out + 1) b'
  end.

(** [v.resize(n)]: truncate, or append value-initialised elements. *)
Definition resize (dflt : T) (n : Z) (b : list T) : list T :=
  take (Z.to_nat n) b ++ replicate (Z.to_nat n - length b)%nat dflt.
End Algorithms.

(** ** The buffer *)

Record gap_buffer (T : Type) : Type := GapBuffer {
  _buf : list T;
  _gap : Z * Z
}.
Arguments GapBuffer {T} _ _.
Arguments _buf {T} _.
Arguments _gap {T} _.

Section GapBuffer.
Context {T : Type} (dflt : T).
Abbreviation buffer := (gap_buffer T).

(** [gap_buffer()]: empty store, empty gap at offset 0. *)
Definition new : buffer := GapBuffer [] (0, 0).

Definition buf_size (s : buffer) : Z := Z.of_nat (length (_buf s)).

Definition gap_id (s : buffer) : Z * Z := _gap s.

Definition gap_size (s : buffer) : Z := snd (_gap s) - fst (_gap s).

Definition enlarge_by_at_least (i : Z) (s : buffer) : option buffer :=
  if decide (i <= 0) then Some s
  else
    let old_buf_size := buf_size s in
    let new_buf_size := 2 * Z.max i old_buf_size in
    let '(gb, ge) := gap_id s in
    let b := resize dflt new_buf_size (_buf s) in
    let end_ := Z.of_nat (length b) in
    b' ← copy_backward ge old_buf_size end_ b;
    Some (GapBuffer b' (gb, end_ - (old_buf_size - ge))).

Definition move_cursor_right (count : Z) (s : buffer) : option buffer :=
  let '(gb, ge) := gap_id s in
  s1 ← enlarge_by_at_least (ge + count - buf_size s) s;
  let new_gap := (gb + count, ge + count) in
  b' ← copy (snd (_gap s1)) (snd new_gap) gb (_buf s1);
  Some (GapBuffer b' new_gap).

Definition move_cursor_left (count : Z) (s : buffer) : option buffer :=
  let '(gb, ge) := gap_id s in
  s1 ← enlarge_by_at_least (count - gb) s;
  let new_gap := (gb - count, ge - count) in
  b' ← copy_backward (fst new_gap) (fst (_gap s1)) ge (_buf s1);
  Some (GapBuffer b' new_gap).

Definition move_cursor_to (index : Z) (s : buffer) : option buffer :=
  let '(gb, ge) := gap_id s in
  if decide (index = gb) then Some s
  else if decide (index > gb) then move_cursor_right (index - gb) s
  else move_cursor_left (gb - index) s.

(** [view()]: the part left of the gap followed by the part right of it. *)
Definition view (s : buffer) : list T :=
  let '(gb, ge) := gap_id s in
  take (Z.to_nat gb) (_buf s) ++ drop (Z.to_nat ge) (_buf s).

Definition size (s : buffer) : Z := buf_size s - gap_size s.

Definition empty (s : buffer) : bool := bool_decide (size s = 0).

Definition back (s : buffer) : option T :=
  let '(gb, ge) := gap_id s in
  if decide (gb = ge \/ ge <> buf_size s)
  then rd (_buf s) (buf_size s - 1)
  else rd (_buf s) (gb - 1).

Definition front (s : buffer) : option T :=
  let '(gb, ge) := gap_id s in
  if decide (gb = ge \/ gb <> 0)
  then rd (_buf s) 0
  else rd (_buf s) (ge + 1).

Definition insert (index : Z) (data : list T) (s : buffer) : option buffer :=
  if decide (0 <= index /\ index <= size s) then
    let n := Z.of_nat (length data) in
    s1 ← enlarge_by_at_least n s;
    s2 ← move_cursor_to index s1;
    let '(gb, ge) := gap_id s2 in
    b' ← copy_from data gb (_buf s2);
    Some (GapBuffer b' (gb + n, ge))
  else None.

(** [insert(index, t)] goes through [std::views::single(t)]. *)
Definition insert_elem (index : Z) (t : T) (s : buffer) : option buffer :=
  insert index [t] s.

(** The cursor forms [insert(data)] and [insert(t)]. *)
Definition insert_cursor (data : list T) (s : buffer) : option buffer :=
  insert (fst (gap_id s)) data s.

Definition insert_cursor_elem (t : T) (s : buffer) : option buffer :=
  insert_elem (fst (gap_id s)) t s.

Definition push_front (data : list T) (s : buffer) : option buffer :=
  insert 0 data s.

Definition push_front_elem (t : T) (s : buffer) : option buffer :=
  insert_elem 0 t s.

Definition push_back (data : list T) (s : buffer) : option buffer :=
  insert (size s) data s.

Definition push_back_elem (t : T) (s : buffer) : option buffer :=
  insert_elem (size s) t s.

(** [_gap.advance(n)] of [std::ranges::subrange]: a negative [n] moves
    the beginning back by [-n]; otherwise the beginning moves forward by
    [n], but not past the end. *)
Definition advance (n : Z) (g : Z * Z) : Z * Z :=
  let '(gb, ge) := g in
  if decide (n < 0) then (gb + n, ge)
  else (gb + Z.min n (ge - gb), ge).

(** In the first branch the clamped count is at least
    [min(0, size() - index)], whose negation is in range for every
    [int64_t] index; in the second branch both negations can wrap. *)
Definition remove (index count : Z) (s : buffer) : option buffer :=
  if decide (count >= 0) then
    let count := Z.min count (size s - index) in
    s1 ← move_cursor_to (index + count) s;
    Some (GapBuffer (_buf s1) (advance (- count) (_gap s1)))
  else
    let count := Z.min (neg64 count) index in
    s1 ← move_cursor_to index s;
    Some (GapBuffer (_buf s1) (advance (neg64 count) (_gap s1))).

Definition remove_prefix (count : Z) (s : buffer) : option buffer :=
  remove 0 count s.

Definition remove_suffix (count : Z) (s : buffer) : option buffer :=
  remove (size s) (neg64 count) s.

Definition clear (s : buffer) : buffer := GapBuffer [] (0, 0).

(** The invariant of the data model. *)
Definition wf (s : buffer) : Prop :=
  0 <= fst (_gap s) /\ fst (_gap s) <= snd (_gap s)
  /\ snd (_gap s) <= buf_size s.
End GapBuffer.

(** ** The other two revisions of the header

    The repository carries three revisions of gap_buffer.hpp.  The
    definitions above follow the one whose operations return [*this];
    the functions in which the other two differ are embedded here. *)

(** The revision with [basic_string_view]: [remove] ends in the helper
    [remove<true>(count)].  Its [move_cursor_right] reads the copy
    destination from [gap_id().first] after growing, which growth leaves
    equal to the offset read before, so [move_cursor_to] is shared. *)
Module V1.
Section V1.
Context {T : Type} (dflt : T).

(** [remove<true>(count)]; the statement [if (count == 0) { *this; }]
    has no effect. *)
Definition remove_left (count : Z) (s : gap_buffer T)
  : option (gap_buffer T) :=
  let '(gb, ge) := gap_id s in
  if decide (count >= 0 /\ gb >= count)
  then Some (GapBuffer (_buf s) (gb - count, ge))
  else None.

Definition remove (index count : Z) (s : gap_buffer T)
  : option (gap_buffer T) :=
  if decide (count >= 0) then
    let count := Z.min count (size s - index) in
    s1 ← move_cursor_to dflt (index + count) s;
    remove_left count s1
  else
    let count := Z.min (neg64 count) index in
    s1 ← move_cursor_to dflt index s;
    remove_left count s1.
End V1.
End V1.

(** The documented revision, whose operations return [void]. *)
Module V2.
Section V2.
Context {T : Type} (dflt : T).

Definition front (s : gap_buffer T) : option T :=
  let '(gb, ge) := gap_id s in
  if decide (gb = ge \/ gb <> 0)
  then rd (_buf s) 0
  else rd (_buf s) ge.

Definition remove (index count : Z) (s : gap_buffer T)
  : option (gap_buffer T) :=
  if decide (index >= 0) then
    if decide (count >= 0) then
      let count := Z.min count (size s - index) in
      s1 ← move_cursor_to dflt (index + count) s;
      Some (GapBuffer (_buf s1) (advance (- count) (_gap s1)))
    else
      let count := Z.min (neg64 count) (index + 1) in
      s1 ← move_cursor_to dflt (index + 1) s;
      Some (GapBuffer (_buf s1) (advance (neg64 count) (_gap s1)))
  else None.

Definition remove_suffix (count : Z) (s : gap_buffer T)
  : option (gap_buffer T) :=
  remove (size s - 1) (neg64 count) s.
End V2.
End V2.

(** ** Public operations and reachable states *)

Inductive op (T : Type) : Type :=
  | Insert (index : Z) (data : list T)
  | InsertElem (index : Z) (t : T)
  | InsertCursor (data : list T)
  | InsertCursorElem (t : T)
  | PushFront (data : list T)
  | PushFrontElem (t : T)
  | PushBack (data : list T)
  | PushBackElem (t : T)
  | Remove (index count : Z)
  | RemovePrefix (count : Z)
  | RemoveSuffix (count : Z)
  | Clear.
Arguments Insert {T} _ _.
Arguments InsertElem {T} _ _.
Arguments InsertCursor {T} _.
Arguments InsertCursorElem {T} _.
Arguments PushFront {T} _.
Arguments PushFrontElem {T} _.
Arguments PushBack {T} _.
Arguments PushBackElem {T} _.
Arguments Remove {T} _ _.
Arguments RemovePrefix {T} _.
Arguments RemoveSuffix {T} _.
Arguments Clear {T}.

Section Operations.
Context {T : Type} (dflt : T).

Definition run (o : op T) (s : gap_buffer T) : option (gap_buffer T) :=
  match o with
  | Insert i data => insert dflt i data s
  | InsertElem i t => insert_elem dflt i t s
  | InsertCursor data => insert_cursor dflt data s
  | InsertCursorElem t => insert_cursor_elem dflt t s
  | PushFront data => push_front dflt data s
  | PushFrontElem t => push_front_elem dflt t s
  | PushBack data => push_back dflt data s
  | PushBackElem t => push_back_elem dflt t s
  | Remove i count => remove dflt i count s
  | RemovePrefix count => remove_prefix dflt count s
  | RemoveSuffix count => remove_suffix dflt count s
  | Clear => Some (clear s)
  end.

(** What a caller owes: an index argument lies in [[0, size()]], and a
    count argument is an [int64_t] that has a negation, that is, any but
    [INT64_MIN]. *)
Definition pre (o : op T) (s : gap_buffer T) : Prop :=
  match o with
  | Insert i _ | InsertElem i _ => 0 <= i /\ i <= size s
  | Remove i count =>
      (0 <= i /\ i <= size s) /\ INT64_MIN < count <= INT64_MAX
  | RemovePrefix count | RemoveSuffix count =>
      INT64_MIN < count <= INT64_MAX
  | _ => True
  end.

(** The states a caller who honours [pre] can bring a buffer into. *)
Inductive reachable : gap_buffer T -> Prop :=
  | reachable_new : reachable new
  | reachable_run s o s' :
      reachable s -> pre o s -> run o s = Some s' -> reachable s'.
End Operations.

(** ** Character buffers used as concrete inputs *)

Definition NUL : ascii := Ascii.zero.

Definition chars (s : string) : list ascii := list_ascii_of_string s.

(** The buffer after [push_back("ab")] on a fresh buffer. *)
Definition buf_ab : gap_buffer ascii :=
  GapBuffer (chars "ab" ++ [NUL; NUL]) (2, 4).

(** [buf_ab] after [remove_prefix(0)]: the gap now starts the store. *)
Definition buf_ab_gap_first : gap_buffer ascii :=
  GapBuffer (chars "abab") (0, 2).

(** The buffer after [push_back("a")], [remove_prefix(0)]. *)
Definition buf_a_gap_first : gap_buffer ascii :=
  GapBuffer (chars "aa") (0, 1).

(** ** A caller's loop

    [for (T t : l) gb.push_back(t);] *)


(** ** The driver's scripted test (main.cpp)

    [equal(gb.view(), str)] is [std::ranges::equal]. *)

Definition equal (v : list ascii) (str : string) : bool :=
  String.eqb (string_of_list_ascii v) str.

Definition test : option (list bool) :=
  let gb := @new ascii in
  let t1 := empty gb && (size gb =? 0) in
  gb ← push_back NUL (chars "gap buffer") gb;
  let t2 := equal (view gb) "gap buffer" in
  gb ← remove NUL 0 100 gb;
  let t3 := empty gb in
  gb ← push_back NUL (chars "gap buffer") gb;
  let gb := clear gb in
  let t4 := empty gb in
  gb ← push_front NUL (chars "gap buffer") gb;
  let t5 := equal (view gb) "gap buffer" in
  gb ← insert_cursor NUL (chars " abc") gb;
  let t6 := equal (view gb) "gap buffer abc" in
  gb ← push_back NUL (chars " efg") gb;
  let t7 := equal (view gb) "gap buffer abc efg" in
  gb ← push_front NUL (chars "--- ") gb;
  let t8 := equal (view gb) "--- gap buffer abc efg" in
  gb ← insert_cursor NUL (chars "***") gb;
  let t9 := equal (view gb) "--- ***gap buffer abc efg" in
  gb ← insert_cursor_elem NUL "#"%char gb;
  let t10 := equal (view gb) "--- ***#gap buffer abc efg" in
  gb ← remove_prefix NUL 0 gb;
  let t11 := equal (view gb) "--- ***#gap buffer abc efg" in
  gb ← remove_prefix NUL 4 gb;
  let t12 := equal (view gb) "***#gap buffer abc efg" in
  gb ← remove_suffix NUL 4 gb;
  let t13 := equal (view gb) "***#gap buffer abc" in
  gb ← remove NUL 4 4 gb;
  let t14 := equal (view gb) "***#buffer abc" in
  gb ← insert_cursor NUL (chars "&&&") gb;
  let t15 := equal (view gb) "***#&&&buffer abc" in
  b ← back gb;
  let t16 := Ascii.eqb b "c" in
  f ← front gb;
  let t17 := Ascii.eqb f "*" in
  Some [t1; t2; t3; t4; t5; t6; t7; t8; t9; t10;
        t11; t12; t13; t14; t15; t16; t17].

(** ** Facts about the copy algorithms *)

Section AlgorithmFacts.
Context {T : Type}.
Implicit Types (b data : list T) (x : T).

Lemma rd_nat b (i : nat) : rd b (Z.of_nat i) = b !! i.
Proof.
  unfold rd. destruct (decide _) as [_|]; [|lia]. by rewrite Nat2Z.id.
Qed.

Lemma wr_nat b (i : nat) x :
  (i < length b)%nat -> wr b (Z.of_nat i) x = Some (<[i := x]> b).
Proof.
  intros Hi. unfold wr. destruct (decide _) as [_|]; [|lia].
  by rewrite Nat2Z.id.
Qed.

(** A forward copy towards lower offsets moves the block intact, even
    when source and destination overlap. *)
Lemma copy_loop_spec n : forall (f o : nat) b,
  (o <= f)%nat -> (f + n <= length b)%nat ->
  copy_loop n (Z.of_nat f) (Z.of_nat o) b
  = Some (take o b ++ take n (drop f b) ++ drop (o + n) b).
Proof.
  induction n as [|n IH]; intros f o b Hof Hlen; simpl.
  - by rewrite Nat.add_0_r, take_drop.
  - destruct (lookup_lt_is_Some_2 b f) as [x Hx]; [lia|].
    rewrite rd_nat, Hx; simpl. rewrite wr_nat by lia; simpl.
    replace (Z.of_nat f + 1) with (Z.of_nat (S f)) by lia.
    replace (Z.of_nat o + 1) with (Z.of_nat (S o)) by lia.
    rewrite IH by (rewrite ?length_insert; lia). f_equal.
    rewrite (take_S_r _ o x) by (apply list_lookup_insert_eq; lia).
    rewrite take_insert_ge by lia.
    rewrite !drop_insert_lt by lia.
    rewrite (drop_S b x f Hx); simpl.
    rewrite <- app_assoc; simpl.
    by replace (o + S n)%nat with (S (o + n)) by lia.
Qed.

Lemma copy_spec (first last out : Z) b :
  0 <= out -> out <= first -> first <= last ->
  last <= Z.of_nat (length b) ->
  copy first last out b
  = Some (take (Z.to_nat out) b
          ++ take (Z.to_nat (last - first)) (drop (Z.to_nat first) b)
          ++ drop (Z.to_nat (out + (last - first))) b).
Proof.
  intros Ho Hof Hfl Hl. unfold copy.
  destruct (decide _) as [_|]; [|lia].
  pose proof (copy_loop_spec (Z.to_nat (last - first))
                (Z.to_nat first) (Z.to_nat out) b) as H.
  rewrite !Z2Nat.id in H by lia. rewrite H by lia.
  by replace (Z.to_nat out + Z.to_nat (last - first))%nat
    with (Z.to_nat (out + (last - first))) by lia.
Qed.

(** A backward copy towards higher offsets moves the block intact, even
    when source and destination overlap. *)
Lemma copy_backward_loop_spec n : forall (l d : nat) b,
  (n <= l)%nat -> (l <= d)%nat -> (d <= length b)%nat ->
  copy_backward_loop n (Z.of_nat l) (Z.of_nat d) b
  = Some (take (d - n) b ++ take n (drop (l - n) b) ++ drop d b).
Proof.
  induction n as [|n IH]; intros l d b Hn Hld Hd; simpl.
  - by rewrite Nat.sub_0_r, take_drop.
  - destruct l as [|l]; [lia|]. destruct d as [|d]; [lia|].
    replace (Z.of_nat (S l) - 1) with (Z.of_nat l) by lia.
    replace (Z.of_nat (S d) - 1) with (Z.of_nat d) by lia.
    destruct (lookup_lt_is_Some_2 b l) as [x Hx]; [lia|].
    rewrite rd_nat, Hx; simpl. rewrite wr_nat by lia; simpl.
    rewrite IH by (rewrite ?length_insert; lia). f_equal.
    rewrite take_insert_ge by lia.
    rewrite (drop_S (<[d:=x]> b) x d)
      by (apply list_lookup_insert_eq; lia).
    rewrite (drop_insert_lt _ (S d)) by lia.
    rewrite (take_drop_commute (<[d:=x]> b)), take_insert_ge by lia.
    rewrite <- take_drop_commute.
    replace (S l - S n)%nat with (l - n)%nat by lia.
    replace (S d - S n)%nat with (d - n)%nat by lia.
    f_equal. rewrite (cons_middle x), app_assoc. f_equal.
    rewrite (take_S_r _ n x); [done|].
    rewrite lookup_drop. by replace (l - n + n)%nat with l by lia.
Qed.

Lemma copy_backward_spec (first last d_last : Z) b :
  0 <= first -> first <= last -> last <= d_last ->
  d_last <= Z.of_nat (length b) ->
  copy_backward first last d_last b
  = Some (take (Z.to_nat (d_last - (last - first))) b
          ++ take (Z.to_nat (last - first)) (drop (Z.to_nat first) b)
          ++ drop (Z.to_nat d_last) b).
Proof.
  intros Hf Hfl Hld Hd. unfold copy_backward.
  destruct (decide _) as [_|]; [|lia].
  pose proof (copy_backward_loop_spec (Z.to_nat (last - first))
                (Z.to_nat last) (Z.to_nat d_last) b) as H.
  rewrite !Z2Nat.id in H by lia. rewrite H by lia.
  replace (Z.to_nat d_last - Z.to_nat (last - first))%nat
    with (Z.to_nat (d_last - (last - first))) by lia.
  by replace (Z.to_nat last - Z.to_nat (last - first))%nat
    with (Z.to_nat first) by lia.
Qed.

Lemma copy_from_spec data : forall (o : nat) b,
  (o + length data <= length b)%nat ->
  copy_from data (Z.of_nat o) b
  = Some (take o b ++ data ++ drop (o + length data) b).
Proof.
  induction data as [|x data IH]; intros o b Hlen; simpl in *.
  - by rewrite Nat.add_0_r, take_drop.
  - rewrite wr_nat by lia; simpl.
    replace (Z.of_nat o + 1) with (Z.of_nat (S o)) by lia.
    rewrite IH by (rewrite ?length_insert; lia). f_equal.
    rewrite (take_S_r _ o x) by (apply list_lookup_insert_eq; lia).
    rewrite take_insert_ge, drop_insert_lt by lia.
    rewrite <- app_assoc; simpl.
    by replace (o + S (length data))%nat with (S o + length data)%nat by lia.
Qed.

Lemma length_resize (dflt : T) (n : Z) b :
  0 <= n -> Z.of_nat (length (resize dflt n b)) = n.
Proof.
  intros Hn. unfold resize.
  rewrite length_app, length_take, length_replicate. lia.
Qed.

Lemma resize_grow (dflt : T) (n : Z) b :
  Z.of_nat (length b) <= n ->
  resize dflt n b = b ++ replicate (Z.to_nat n - length b)%nat dflt.
Proof. intros Hn. unfold resize. by rewrite take_ge by lia. Qed.
End AlgorithmFacts.

(** ** Negation of counts *)

Lemma neg64_eq x : x <> INT64_MIN -> neg64 x = - x.
Proof. intros Hx. unfold neg64. by rewrite decide_False. Qed.

(** The two negations of the negative branch of [remove] cancel as in
    the integers when the count has a negation, and also when the run
    asked for fits left of the index. *)
Lemma neg64_clamp count index :
  count < 0 -> 0 <= index ->
  INT64_MIN < count \/ - count <= index ->
  neg64 (Z.min (neg64 count) index) = - Z.min (- count) index.
Proof.
  intros Hc Hi Hok. unfold neg64, INT64_MIN in *.
  destruct (decide (count = - 2 ^ 63)) as [->|Hne].
  - rewrite Z.min_l by lia. rewrite decide_True by done. lia.
  - rewrite decide_False by lia. done.
Qed.

(** ** Growth and cursor relocation *)

Section BufferFacts.
Context {T : Type} (dflt : T).
Implicit Types (s : gap_buffer T) (data : list T).

Lemma size_view s : wf s -> size s = Z.of_nat (length (view s)).
Proof.
  destruct s as [b [gb ge]]. unfold wf, size, buf_size, gap_size, view.
  simpl. intros (H0 & H1 & H2).
  rewrite length_app, length_take, length_drop. lia.
Qed.

Lemma enlarge_noop i s : i <= 0 -> enlarge_by_at_least dflt i s = Some s.
Proof. intros Hi. unfold enlarge_by_at_least. by rewrite decide_True. Qed.

(** What growth does to a well-formed buffer: the store has the new
    capacity, the part left of the gap is where it was and the part right
    of the gap is the tail of the new store. *)
Lemma enlarge_grow i s :
  wf s -> 0 < i ->
  let n := 2 * Z.max i (buf_size s) in
  let ge' := n - (buf_size s - snd (_gap s)) in
  exists b',
    enlarge_by_at_least dflt i s = Some (GapBuffer b' (fst (_gap s), ge'))
    /\ Z.of_nat (length b') = n
    /\ take (Z.to_nat (fst (_gap s))) b'
       = take (Z.to_nat (fst (_gap s))) (_buf s)
    /\ drop (Z.to_nat ge') b' = drop (Z.to_nat (snd (_gap s))) (_buf s).
Proof.
  destruct s as [b [gb ge]]. unfold wf, buf_size. simpl.
  intros (H0 & H1 & H2) Hi.
  unfold enlarge_by_at_least, buf_size, gap_id. simpl.
  rewrite decide_False by lia.
  remember (Z.of_nat (length b)) as old eqn:Hold.
  remember (2 * Z.max i old) as n eqn:Hn.
  rewrite length_resize by lia.
  rewrite copy_backward_spec by (rewrite ?length_resize; lia).
  simpl. eexists. split; [reflexivity|].
  rewrite resize_grow by lia.
  set (pad := replicate (Z.to_nat n - length b)%nat dflt).
  assert (Hpad : length pad = (Z.to_nat n - length b)%nat)
    by apply length_replicate.
  rewrite (drop_ge (b ++ pad) (Z.to_nat n)) by (rewrite length_app; lia).
  rewrite app_nil_r.
  rewrite (drop_app_le b pad) by lia.
  rewrite (take_app_length' (drop (Z.to_nat ge) b))
    by (rewrite length_drop; lia).
  assert (Hlen : length (take (Z.to_nat (n - (old - ge))) (b ++ pad))
                 = Z.to_nat (n - (old - ge)))
    by (rewrite length_take, length_app; lia).
  split; [|split].
  - rewrite length_app, Hlen, length_drop. lia.
  - rewrite take_app_le by lia.
    rewrite take_take, Nat.min_l by lia.
    by rewrite take_app_le by lia.
  - by rewrite drop_app_length' by lia.
Qed.

(** Growth keeps the invariant, the cursor and the logical content, and
    leaves a gap of at least the requested size. *)
Lemma enlarge_spec i s :
  wf s ->
  exists s1,
    enlarge_by_at_least dflt i s = Some s1
    /\ wf s1 /\ view s1 = view s
    /\ fst (_gap s1) = fst (_gap s)
    /\ i <= gap_size s1.
Proof.
  intros Hwf. destruct (decide (i <= 0)) as [Hi|Hi].
  - exists s. rewrite enlarge_noop by done.
    unfold wf, gap_size in *. repeat split; try done; lia.
  - destruct (enlarge_grow i s Hwf) as (b' & -> & Hlen & Htake & Hdrop);
      [lia|].
    eexists. split; [reflexivity|].
    destruct s as [b [gb ge]].
    unfold wf, gap_size, view, buf_size, gap_id in *. simpl in *.
    rewrite Htake, Hdrop. repeat split; try done; lia.
Qed.

(** Relocating the cursor to a logical index: the store keeps its
    length, the gap keeps its size and starts at the index, and the two
    sides of the gap hold the logical content cut at the index. *)
Lemma move_cursor_to_spec index s :
  wf s -> 0 <= index <= size s ->
  exists b',
    move_cursor_to dflt index s
    = Some (GapBuffer b' (index, index + gap_size s))
    /\ length b' = length (_buf s)
    /\ take (Z.to_nat index) b' = take (Z.to_nat index) (view s)
    /\ drop (Z.to_nat (index + gap_size s)) b'
       = drop (Z.to_nat index) (view s).
Proof.
  destruct s as [b [gb ge]].
  unfold wf, size, gap_size, buf_size, view, gap_id. simpl.
  intros (H0 & H1 & H2) Hi.
  assert (Hlt : length (take (Z.to_nat gb) b) = Z.to_nat gb)
    by (rewrite length_take; lia).
  unfold move_cursor_to, gap_id. simpl.
  destruct (decide (index = gb)) as [->|Hne];
    [|destruct (decide (index > gb)) as [Hgt|Hle]].
  - exists b. replace (gb + (ge - gb)) with ge by lia.
    split; [done|]. split; [done|]. split.
    + by rewrite take_app_length' by done.
    + by rewrite drop_app_length' by done.
  - unfold move_cursor_right, gap_id, buf_size. simpl.
    rewrite enlarge_noop by lia. simpl.
    rewrite copy_spec by lia.
    replace (ge + (index - gb) - ge) with (index - gb) by lia.
    replace (gb + (index - gb)) with index by lia.
    replace (ge + (index - gb)) with (index + (ge - gb)) by lia.
    eexists. split; [reflexivity|].
    assert (Hmid : length (take (Z.to_nat (index - gb))
                            (drop (Z.to_nat ge) b))
                   = Z.to_nat (index - gb))
      by (rewrite length_take, length_drop; lia).
    split; [|split].
    + rewrite !length_app, Hlt, Hmid, length_drop. lia.
    + rewrite app_assoc.
      rewrite take_app_length' by (rewrite length_app; lia).
      rewrite take_app_ge, Hlt by lia.
      by replace (Z.to_nat index - Z.to_nat gb)%nat
        with (Z.to_nat (index - gb)) by lia.
    + rewrite app_assoc.
      rewrite drop_app_ge by (rewrite length_app; lia).
      rewrite length_app, Hlt, Hmid, drop_drop.
      rewrite (drop_app_ge (take _ _)), Hlt, drop_drop by lia.
      f_equal. lia.
  - unfold move_cursor_left, gap_id, buf_size. simpl.
    rewrite enlarge_noop by lia. simpl.
    rewrite copy_backward_spec by lia.
    replace (gb - (gb - index)) with index by lia.
    replace (ge - (gb - index)) with (index + (ge - gb)) by lia.
    eexists. split; [reflexivity|].
    assert (Hl : length (take (Z.to_nat (index + (ge - gb))) b)
                 = Z.to_nat (index + (ge - gb)))
      by (rewrite length_take; lia).
    assert (Hmid : length (take (Z.to_nat (gb - index))
                            (drop (Z.to_nat index) b))
                   = Z.to_nat (gb - index))
      by (rewrite length_take, length_drop; lia).
    split; [|split].
    + rewrite !length_app, Hl, Hmid, length_drop. lia.
    + rewrite !take_app_le by lia.
      by rewrite !take_take, !Nat.min_l by lia.
    + rewrite drop_app_length' by lia.
      rewrite drop_app_le by lia. f_equal.
      rewrite take_drop_commute. do 2 f_equal. lia.
Qed.

(** ** Insertion and removal *)

Lemma insert_spec index data s :
  wf s -> 0 <= index <= size s ->
  exists s',
    insert dflt index data s = Some s'
    /\ wf s'
    /\ fst (_gap s') = index + Z.of_nat (length data)
    /\ view s' = take (Z.to_nat index) (view s) ++ data
                 ++ drop (Z.to_nat index) (view s).
Proof.
  intros Hwf Hi. unfold insert. rewrite decide_True by lia.
  destruct (enlarge_spec (Z.of_nat (length data)) s Hwf)
    as (s1 & -> & Hwf1 & Hv1 & _ & Hroom). simpl.
  assert (Hi1 : 0 <= index <= size s1)
    by (rewrite size_view, Hv1, <- size_view by done; lia).
  destruct (move_cursor_to_spec index s1 Hwf1 Hi1)
    as (b2 & -> & Hlen & Htake & Hdrop). simpl.
  rewrite Hv1 in Htake, Hdrop. clear Hv1.
  generalize dependent (view s). intros C Htake Hdrop.
  pose proof Hwf1 as (G0 & G1 & G2). unfold buf_size in G2.
  unfold size, buf_size in Hi1. unfold gap_size in *.
  set (g := snd (_gap s1) - fst (_gap s1)) in *.
  pose proof (copy_from_spec data (Z.to_nat index) b2) as Hcp.
  rewrite Z2Nat.id in Hcp by lia. rewrite Hcp by lia. simpl.
  eexists. split; [reflexivity|].
  unfold wf, view, buf_size, gap_id. simpl.
  assert (Hl : length (take (Z.to_nat index) b2) = Z.to_nat index)
    by (rewrite length_take; lia).
  split; [|split; [done|]].
  - rewrite !length_app, Hl, length_drop. lia.
  - rewrite app_assoc.
    rewrite take_app_length' by (rewrite length_app; lia).
    rewrite drop_app_ge by (rewrite length_app; lia).
    rewrite length_app, Hl, drop_drop, Htake, <- Hdrop.
    rewrite <- app_assoc. do 3 f_equal. lia.
Qed.

Lemma insert_size index data s :
  wf s -> 0 <= index <= size s ->
  forall s', insert dflt index data s = Some s' ->
  size s' = size s + Z.of_nat (length data).
Proof.
  intros Hwf Hi s' Hs'.
  destruct (insert_spec index data s Hwf Hi) as (s2 & E & Hwf2 & _ & Hv).
  rewrite E in Hs'. injection Hs' as <-.
  rewrite (size_view s2), Hv, (size_view s) by done.
  pose proof (size_view s Hwf) as Hsz.
  rewrite !length_app, length_take, length_drop. lia.
Qed.

(** The common tail of both branches of [remove]: relocate the cursor
    to the right edge [hi] of the run, then pull the gap's beginning
    back by [k]. *)
Lemma remove_run hi k s :
  wf s -> 0 <= k <= hi -> hi <= size s ->
  exists s',
    (s1 ← move_cursor_to dflt hi s;
     Some (GapBuffer (_buf s1) (advance (- k) (_gap s1)))) = Some s'
    /\ wf s'
    /\ length (_buf s') = length (_buf s)
    /\ fst (_gap s') = hi - k
    /\ view s' = take (Z.to_nat (hi - k)) (view s)
                 ++ drop (Z.to_nat hi) (view s).
Proof.
  intros Hwf Hk Hhi.
  destruct (move_cursor_to_spec hi s Hwf) as (b1 & -> & Hlen & Htake & Hdrop);
    [lia|].
  pose proof Hwf as (G0 & G1 & G2).
  unfold size, buf_size, gap_size in *.
  generalize dependent (view s). intros C Htake Hdrop.
  set (g := snd (_gap s) - fst (_gap s)) in *.
  assert (Hadv : advance (- k) (hi, hi + g) = (hi - k, hi + g)).
  { unfold advance. destruct (decide (- k < 0)); f_equal; lia. }
  cbn -[advance]. rewrite Hadv. eexists. split; [reflexivity|].
  unfold wf, view, buf_size, gap_id. simpl.
  split; [lia|]. split; [done|]. split; [done|].
  rewrite Hdrop. f_equal.
  transitivity (take (Z.to_nat (hi - k)) (take (Z.to_nat hi) b1)).
  - rewrite take_take. f_equal. lia.
  - rewrite Htake, take_take. f_equal. lia.
Qed.

(** [remove] on a well-formed buffer at an index in range, for both
    signs of the count; a negative count has a negation in [int64_t], or
    asks for no more than lies left of the index. *)
Lemma remove_spec index count s :
  wf s -> 0 <= index <= size s ->
  0 <= count \/ INT64_MIN < count \/ - count <= index ->
  let k := if decide (count >= 0) then Z.min count (size s - index)
           else Z.min (- count) index in
  let lo := if decide (count >= 0) then index else index - k in
  exists s',
    remove dflt index count s = Some s'
    /\ wf s'
    /\ length (_buf s') = length (_buf s)
    /\ fst (_gap s') = lo
    /\ view s' = take (Z.to_nat lo) (view s)
                 ++ drop (Z.to_nat (lo + k)) (view s).
Proof.
  intros Hwf Hi Hok. unfold remove.
  destruct (decide (count >= 0)) as [Hc|Hc]; cbv zeta.
  - set (k := Z.min count (size s - index)).
    destruct (remove_run (index + k) k s Hwf) as (s' & E & H); [lia..|].
    exists s'. split; [done|].
    by replace (index + k - k) with index in H by lia.
  - rewrite neg64_clamp by lia.
    set (k := Z.min (- count) index).
    destruct (remove_run index k s Hwf) as (s' & E & H); [lia..|].
    exists s'. split; [done|].
    by replace (index - k + k) with index by lia.
Qed.

(** [remove] returns for every count, and never with another store
    length. *)
Lemma remove_total index count s :
  wf s -> 0 <= index <= size s ->
  exists s',
    remove dflt index count s = Some s'
    /\ length (_buf s') = length (_buf s).
Proof.
  intros Hwf Hi.
  destruct (decide (0 <= count)) as [Hc|Hc].
  - destruct (remove_spec index count s Hwf Hi) as (s' & E & _ & Hl & _);
      [lia|]. by exists s'.
  - unfold remove. rewrite decide_False by lia. cbv zeta.
    destruct (move_cursor_to_spec index s Hwf Hi) as (b1 & -> & Hl & _).
    eexists. split; [reflexivity|]. done.
Qed.

(** Growth that is requested always lengthens the store, so a store of
    unchanged length has not grown. *)
Lemma enlarge_strict i s s' :
  0 < i -> enlarge_by_at_least dflt i s = Some s' ->
  buf_size s < buf_size s'.
Proof.
  intros Hi. unfold enlarge_by_at_least. rewrite decide_False by lia.
  destruct s as [b [gb ge]]. unfold gap_id, buf_size. simpl.
  remember (2 * Z.max i (Z.of_nat (length b))) as n eqn:Hn.
  assert (Hres : Z.of_nat (length (resize dflt n b)) = n)
    by (apply length_resize; lia).
  unfold copy_backward. destruct (decide _) as [Hle|]; [|done].
  intros Hs'. apply bind_Some in Hs' as (b' & Hcp & [= <-]). simpl.
  assert (Hkeep : forall m l d (c c' : list T),
    copy_backward_loop m l d c = Some c' -> length c' = length c).
  { induction m as [|m IH]; intros l d c c'; simpl.
    - by intros [= <-].
    - intros H. apply bind_Some in H as (x & _ & H).
      apply bind_Some in H as (c1 & Hw & H).
      unfold wr in Hw. destruct (decide _); [|done].
      injection Hw as <-. rewrite (IH _ _ _ _ H). apply length_insert. }
  rewrite (Hkeep _ _ _ _ _ Hcp). lia.
Qed.

(** ** Element access *)

Lemma back_spec s : wf s -> 0 < size s -> back s = last (view s).
Proof.
  destruct s as [b [gb ge]].
  unfold back, view, wf, size, gap_size, gap_id, buf_size. simpl.
  intros (H0 & H1 & H2) Hsz.
  rewrite last_lookup, length_app, length_take, length_drop.
  destruct (decide _) as [[->| Hne]|Hn].
  - rewrite take_drop. unfold rd. rewrite decide_True by lia.
    f_equal. lia.
  - unfold rd. rewrite decide_True by lia.
    rewrite lookup_app_r by (rewrite length_take; lia).
    rewrite length_take, lookup_drop. f_equal. lia.
  - assert (ge = Z.of_nat (length b)) as -> by lia.
    rewrite drop_ge, app_nil_r by lia.
    unfold rd. rewrite decide_True by lia.
    rewrite lookup_take, decide_True by lia. f_equal. lia.
Qed.

(** [front()] is right whenever it takes its first branch. *)
Lemma front_first_branch s :
  wf s -> 0 < size s ->
  fst (_gap s) = snd (_gap s) \/ fst (_gap s) <> 0 ->
  front s = head (view s).
Proof.
  destruct s as [b [gb ge]].
  unfold front, view, wf, size, gap_size, gap_id, buf_size. simpl.
  intros (H0 & H1 & H2) Hsz Hbr.
  rewrite decide_True by done. rewrite head_lookup.
  unfold rd. simpl. destruct Hbr as [->|Hne].
  - by rewrite take_drop.
  - rewrite lookup_app_l by (rewrite length_take; lia).
    by rewrite lookup_take, decide_True by lia.
Qed.

(** With a non-empty gap at offset 0, [front()] yields the element at
    logical index 1, if there is one. *)
Lemma front_gap_first s :
  wf s -> fst (_gap s) = 0 -> 0 < snd (_gap s) ->
  front s = view s !! 1%nat.
Proof.
  destruct s as [b [gb ge]].
  unfold front, view, wf, gap_id, buf_size. simpl.
  intros (H0 & H1 & H2) -> Hge.
  rewrite decide_False by lia. simpl.
  rewrite lookup_drop. unfold rd. rewrite decide_True by lia.
  f_equal. lia.
Qed.

(** The documented revision dereferences [_gap.end()] and is right in
    every gap position. *)
Lemma V2_front_spec s : wf s -> 0 < size s -> V2.front s = head (view s).
Proof.
  intros Hwf Hsz. destruct (decide (fst (_gap s) = snd (_gap s)
                                    \/ fst (_gap s) <> 0)) as [Hbr|Hbr].
  - rewrite <- front_first_branch by done.
    destruct s as [b [gb ge]]. unfold V2.front, front, gap_id. simpl in *.
    by rewrite !decide_True by done.
  - destruct s as [b [gb ge]].
    unfold V2.front, view, wf, size, gap_size, gap_id, buf_size in *.
    simpl in *. rewrite decide_False by done.
    assert (gb = 0) as -> by lia. simpl.
    rewrite head_lookup, lookup_drop, Nat.add_0_r.
    unfold rd. by rewrite decide_True by lia.
Qed.

(** ** The other revisions of [remove] *)

Lemma V1_remove_agrees index count s :
  wf s -> 0 <= index <= size s -> INT64_MIN < count ->
  V1.remove dflt index count s = remove dflt index count s.
Proof.
  intros Hwf Hi Hmin. pose proof Hwf as (G0 & G1 & G2).
  assert (Hrun : forall hi k, 0 <= k <= hi -> hi <= size s ->
    (s1 ← move_cursor_to dflt hi s; V1.remove_left k s1)
    = (s1 ← move_cursor_to dflt hi s;
       Some (GapBuffer (_buf s1) (advance (- k) (_gap s1))))).
  { intros hi k Hk Hhi.
    destruct (move_cursor_to_spec hi s Hwf) as (b1 & -> & _); [lia|].
    unfold size, gap_size, buf_size in *.
    cbn. unfold V1.remove_left, advance, gap_id. simpl.
    rewrite decide_True by lia.
    destruct (decide (- k < 0)); do 3 f_equal; lia. }
  unfold V1.remove, remove.
  destruct (decide (count >= 0)); cbv zeta; [apply Hrun; lia|].
  rewrite (neg64_eq count) by lia.
  rewrite (neg64_eq (Z.min (- count) index)) by (unfold INT64_MIN; lia).
  apply Hrun; lia.
Qed.

(** At [INT64_MIN] the clamped count of the first revision is
    [INT64_MIN] itself, and [assert(count >= 0)] fails. *)
Lemma V1_remove_int64_min index s :
  wf s -> 0 <= index <= size s ->
  V1.remove dflt index INT64_MIN s = None.
Proof.
  intros Hwf Hi. unfold V1.remove.
  rewrite decide_False by (unfold INT64_MIN; lia). cbv zeta.
  destruct (move_cursor_to_spec index s Hwf Hi) as (b1 & -> & _).
  cbn. unfold V1.remove_left, gap_id. simpl.
  rewrite decide_False; [done|]. unfold neg64.
  rewrite decide_True by done. unfold INT64_MIN. lia.
Qed.

(** The helper of the first revision leaves the buffer as it is for a
    count of 0. *)
Lemma V1_remove_left_zero s :
  0 <= fst (_gap s) -> V1.remove_left 0 s = Some s.
Proof.
  destruct s as [b [gb ge]]. unfold V1.remove_left, gap_id. simpl.
  intros H0. rewrite decide_True by lia. do 3 f_equal. lia.
Qed.

(** In the documented revision a negative count removes the run that
    ends with the element at [index], not the run before it. *)
Lemma V2_remove_neg_spec index count s :
  wf s -> 0 <= index < size s -> INT64_MIN < count < 0 ->
  let k := Z.min (- count) (index + 1) in
  exists s',
    V2.remove dflt index count s = Some s'
    /\ view s' = take (Z.to_nat (index + 1 - k)) (view s)
                 ++ drop (Z.to_nat (index + 1)) (view s).
Proof.
  intros Hwf Hi Hc k. unfold V2.remove.
  rewrite decide_True, decide_False by lia. cbv zeta.
  rewrite (neg64_eq count) by lia. fold k.
  rewrite (neg64_eq k) by (unfold k, INT64_MIN; lia).
  destruct (remove_run (index + 1) k s Hwf) as (s' & E & _ & _ & _ & Hv);
    [lia..|].
  exists s'. by split.
Qed.

(** ** Every operation keeps the invariant *)




End BufferFacts.

(** ** The laws of the public operations *)

Lemma wf_buf_ab : wf buf_ab.
Proof. unfold wf, buf_size. simpl. lia. Qed.

Lemma wf_buf_ab_gap_first : wf buf_ab_gap_first.
Proof. unfold wf, buf_size. simpl. lia. Qed.

Lemma size_buf_ab : size buf_ab = 2.
Proof. reflexivity. Qed.

Lemma buf_ab_reachable : reachable NUL buf_ab.
Proof.
  apply (reachable_run NUL new (PushBack (chars "ab")));
    [apply reachable_new | exact I | reflexivity].
Qed.

Lemma buf_ab_gap_first_reachable : reachable NUL buf_ab_gap_first.
Proof.
  apply (reachable_run NUL buf_ab (RemovePrefix 0));
    [apply buf_ab_reachable | | reflexivity].
  simpl. unfold INT64_MIN, INT64_MAX. lia.
Qed.

(** C1. Insert content law: on a buffer with content [C] of size [n],
    [insert(i, data)] with [0 <= i <= n] succeeds, the new content is
    [C[0:i] ++ data ++ C[i:n]] and the new size is [n + |data|]; the
    elements of [C] keep their order on either side of the inserted run. *)
Theorem insert_content_law {T : Type} (dflt : T)
    (s : gap_buffer T) (i : Z) (data : list T) :
  wf s -> 0 <= i <= size s ->
  exists s',
    insert dflt i data s = Some s'
    /\ view s' = take (Z.to_nat i) (view s) ++ data
                 ++ drop (Z.to_nat i) (view s)
    /\ size s' = size s + Z.of_nat (length data).
Proof.
  intros Hwf Hi.
  destruct (insert_spec dflt i data s Hwf Hi) as (s' & E & _ & _ & Hv).
  exists s'. split; [done|]. split; [done|].
  by apply (insert_size dflt i data s).
Qed.

Lemma insert_content_law_witness :
  exists s',
    insert NUL 1 (chars "xy") buf_ab = Some s'
    /\ view s' = take (Z.to_nat 1) (view buf_ab) ++ chars "xy"
                 ++ drop (Z.to_nat 1) (view buf_ab)
    /\ size s' = size buf_ab + Z.of_nat (length (chars "xy")).
Proof.
  apply (insert_content_law NUL buf_ab 1 (chars "xy"));
    [unfold wf, buf_size; simpl; lia | rewrite size_buf_ab; lia].
Defined.

(** C2. Remove content law, non-negative count: [remove(i, k)] with
    [0 <= i <= n] and [k >= 0] removes [k' = min(k, n - i)] elements
    starting at [i], leaving [C[0:i] ++ C[i+k':n]] of size [n - k']; a
    count reaching past the end removes up to the end only. *)
Theorem remove_nonneg_content_law {T : Type} (dflt : T)
    (s : gap_buffer T) (i k : Z) :
  wf s -> 0 <= i <= size s -> 0 <= k ->
  let k' := Z.min k (size s - i) in
  exists s',
    remove dflt i k s = Some s'
    /\ view s' = take (Z.to_nat i) (view s)
                 ++ drop (Z.to_nat (i + k')) (view s)
    /\ size s' = size s - k'
    /\ (size s - i <= k -> view s' = take (Z.to_nat i) (view s)).
Proof.
  intros Hwf Hi Hk k'.
  destruct (remove_spec dflt i k s Hwf Hi) as (s' & E & Hwf' & _ & _ & Hv);
    [lia|].
  rewrite !decide_True in Hv by lia. fold k' in Hv.
  pose proof (size_view s Hwf) as Hsz.
  exists s'. split; [done|]. split; [done|]. split.
  - rewrite (size_view s'), Hv by done.
    rewrite length_app, length_take, length_drop. lia.
  - intros Hover. rewrite Hv, drop_ge, app_nil_r by lia. done.
Qed.

Lemma remove_nonneg_content_law_witness :
  exists s',
    remove NUL 1 100 buf_ab = Some s'
    /\ view s' = take (Z.to_nat 1) (view buf_ab)
                 ++ drop (Z.to_nat (1 + Z.min 100 (size buf_ab - 1)))
                      (view buf_ab)
    /\ size s' = size buf_ab - Z.min 100 (size buf_ab - 1)
    /\ (size buf_ab - 1 <= 100 -> view s' = take (Z.to_nat 1) (view buf_ab)).
Proof.
  apply (remove_nonneg_content_law NUL buf_ab 1 100);
    [unfold wf, buf_size; simpl; lia | rewrite size_buf_ab; lia | lia].
Defined.

(** The two revisions of [remove] on ["abcdef"] with index 3 and count
    -2: the one followed here removes ["bc"], the documented one ["cd"]. *)
Example remove_neg_revisions :
  (s ← push_back NUL (chars "abcdef") new;
   s' ← remove NUL 3 (-2) s; Some (view s')) = Some (chars "adef")
  /\ (s ← push_back NUL (chars "abcdef") new;
      s' ← V2.remove NUL 3 (-2) s; Some (view s')) = Some (chars "abef").
Proof. by vm_compute. Qed.

(** C3, as stated: for every count < 0, [remove(i, count)] would clamp
    the magnitude to [min(|count|, i)] and delete that many elements
    ending at index [i].  It does not at [INT64_MIN], whose negation
    wraps: on the buffer holding ["ab"], [remove(1, INT64_MIN)] keeps
    [INT64_MIN] as the clamped count and leaves the gap beginning at
    [1 - 2^63], with a negative [size()], where one element should have
    gone.  Nor does it in the documented revision, which on ["abcdef"]
    with index 3 and count -2 removes ["cd"], not ["bc"]. *)
Lemma remove_neg_int64_min_wraps :
  reachable NUL buf_ab
  /\ 0 <= 1 <= size buf_ab
  /\ (exists s',
        remove NUL 1 INT64_MIN buf_ab = Some s'
        /\ gap_id s' = (1 - 2 ^ 63, 3)
        /\ size s' = 2 - 2 ^ 63
        /\ size s' <> size buf_ab - Z.min (Z.abs INT64_MIN) 1)
  /\ (s ← push_back NUL (chars "abcdef") new;
      s' ← V2.remove NUL 3 (-2) s; Some (view s')) = Some (chars "abef")
  /\ chars "abef"
     <> take (Z.to_nat (3 - Z.min (Z.abs (-2)) 3)) (chars "abcdef")
        ++ drop (Z.to_nat 3) (chars "abcdef").
Proof.
  split; [apply buf_ab_reachable|]. split; [by vm_compute|].
  split; [|by vm_compute].
  eexists. split; [by vm_compute|]. by vm_compute.
Qed.

(** C3, amended: in the revision that clamps to [index], for every count
    with [INT64_MIN < count < 0] and every index [0 <= i <= n],
    [remove(i, count)] removes the [k' = min(|count|, i)] elements that
    end at index [i], leaving [C[0:i-k'] ++ C[i:n]]. *)
Theorem remove_neg_content_law {T : Type} (dflt : T)
    (s : gap_buffer T) (i count : Z) :
  wf s -> 0 <= i <= size s -> INT64_MIN < count < 0 ->
  let k' := Z.min (Z.abs count) i in
  exists s',
    remove dflt i count s = Some s'
    /\ view s' = take (Z.to_nat (i - k')) (view s)
                 ++ drop (Z.to_nat i) (view s)
    /\ size s' = size s - k'.
Proof.
  intros Hwf Hi Hc k'.
  destruct (remove_spec dflt i count s Hwf Hi)
    as (s' & E & Hwf' & _ & _ & Hv); [lia|].
  rewrite !decide_False in Hv by lia.
  replace (Z.min (- count) i) with k' in Hv by (unfold k'; lia).
  replace (i - k' + k') with i in Hv by lia.
  pose proof (size_view s Hwf) as Hsz.
  exists s'. split; [done|]. split; [done|].
  rewrite (size_view s'), Hv by done.
  rewrite length_app, length_take, length_drop. lia.
Qed.

Lemma remove_neg_content_law_witness :
  exists s',
    remove NUL 2 (-1) buf_ab = Some s'
    /\ view s' = take (Z.to_nat (2 - Z.min (Z.abs (-1)) 2)) (view buf_ab)
                 ++ drop (Z.to_nat 2) (view buf_ab)
    /\ size s' = size buf_ab - Z.min (Z.abs (-1)) 2.
Proof.
  apply (remove_neg_content_law NUL buf_ab 2 (-1));
    [unfold wf, buf_size; simpl; lia | rewrite size_buf_ab; lia
    | unfold INT64_MIN; lia].
Defined.

(** C4. [front()] and [back()] under gap adjacency.  [back()] returns the
    last element of the content in every gap position, and [front()] the
    first one whenever the gap is empty or does not start the store.  With
    a non-empty gap at offset 0, [front()] dereferences [_gap.end() + 1]:
    on the two-element buffer below it returns the second element, and on
    the one-element buffer it reads past the store. *)
Theorem front_gap_first_skips_element :
  reachable NUL buf_ab_gap_first
  /\ view buf_ab_gap_first = chars "ab"
  /\ back buf_ab_gap_first = last (view buf_ab_gap_first)
  /\ head (view buf_ab_gap_first) = Some "a"%char
  /\ front buf_ab_gap_first = Some "b"%char
  /\ V2.front buf_ab_gap_first = Some "a"%char
  /\ head (view buf_a_gap_first) = Some "a"%char
  /\ front buf_a_gap_first = None.
Proof.
  split; [apply buf_ab_gap_first_reachable|]. by vm_compute.
Qed.

(** C5. Growth policy: [enlarge_by_at_least(n)] does nothing for
    [n <= 0]; otherwise the store is resized to
    [2 * max(n, old_capacity)], the gap keeps its start, its end becomes
    [new_capacity - (old_capacity - old_gap_end)], the elements right of
    the old gap are the rightmost elements of the new store, and the
    logical content is unchanged. *)
Theorem enlarge_by_at_least_law {T : Type} (dflt : T)
    (s : gap_buffer T) (n : Z) :
  (n <= 0 -> enlarge_by_at_least dflt n s = Some s)
  /\ (0 < n -> wf s ->
      exists s',
        enlarge_by_at_least dflt n s = Some s'
        /\ buf_size s' = 2 * Z.max n (buf_size s)
        /\ fst (gap_id s') = fst (gap_id s)
        /\ snd (gap_id s') = buf_size s' - (buf_size s - snd (gap_id s))
        /\ drop (Z.to_nat (snd (gap_id s'))) (_buf s')
           = drop (Z.to_nat (snd (gap_id s))) (_buf s)
        /\ take (Z.to_nat (fst (gap_id s'))) (_buf s')
           = take (Z.to_nat (fst (gap_id s))) (_buf s)
        /\ view s' = view s).
Proof.
  split; [apply enlarge_noop|]. intros Hn Hwf.
  destruct (enlarge_grow dflt n s Hwf Hn) as (b' & E & Hlen & Htake & Hdrop).
  eexists. split; [exact E|].
  unfold view, gap_id, buf_size in *. simpl.
  rewrite Hlen, Htake, Hdrop. destruct s as [b [gb ge]]. by simpl.
Qed.

Lemma enlarge_by_at_least_law_witness :
  enlarge_by_at_least NUL 0 buf_ab_gap_first = Some buf_ab_gap_first
  /\ exists s',
       enlarge_by_at_least NUL 3 buf_ab_gap_first = Some s'
       /\ buf_size s' = 2 * Z.max 3 (buf_size buf_ab_gap_first)
       /\ fst (gap_id s') = fst (gap_id buf_ab_gap_first)
       /\ snd (gap_id s')
          = buf_size s'
            - (buf_size buf_ab_gap_first - snd (gap_id buf_ab_gap_first))
       /\ drop (Z.to_nat (snd (gap_id s'))) (_buf s')
          = drop (Z.to_nat (snd (gap_id buf_ab_gap_first)))
              (_buf buf_ab_gap_first)
       /\ take (Z.to_nat (fst (gap_id s'))) (_buf s')
          = take (Z.to_nat (fst (gap_id buf_ab_gap_first)))
              (_buf buf_ab_gap_first)
       /\ view s' = view buf_ab_gap_first.
Proof.
  split.
  - apply (enlarge_by_at_least_law NUL buf_ab_gap_first 0). lia.
  - apply (enlarge_by_at_least_law NUL buf_ab_gap_first 3);
      [lia | unfold wf, buf_size; simpl; lia].
Defined.




(** C7. [clear()] yields [size() == 0] and [empty()] from any state, and
    a second [clear()] changes nothing. *)
Theorem clear_idempotent {T : Type} (s : gap_buffer T) :
  size (clear s) = 0
  /\ empty (clear s) = true
  /\ clear (clear s) = clear s.
Proof. by repeat split. Qed.

(** C8, as stated: [remove(i, 0)] would return the buffer unchanged.  It
    does not: on the buffer holding ["ab"] with the cursor at 2,
    [remove(0, 0)] relocates the cursor to 0 and rewrites the store, and a
    cursor-form insert issued afterwards lands at the front instead of
    the back. *)
Lemma remove_zero_relocates_cursor :
  reachable NUL buf_ab
  /\ 0 <= 0 <= size buf_ab
  /\ remove NUL 0 0 buf_ab = Some buf_ab_gap_first
  /\ remove NUL 0 0 buf_ab <> Some buf_ab
  /\ (s1 ← insert_cursor NUL (chars "x") buf_ab; Some (view s1))
     = Some (chars "abx")
  /\ (s0 ← remove NUL 0 0 buf_ab;
      s1 ← insert_cursor NUL (chars "x") s0; Some (view s1))
     = Some (chars "xab").
Proof.
  split; [apply buf_ab_reachable|]. by vm_compute.
Qed.

(** C8, amended: [remove(i, 0)] with [0 <= i <= size()] leaves the logical
    content, [size()] and the length of the store unchanged and moves the
    cursor to [i]; when [i] is the cursor already, the buffer is
    unchanged. *)
Theorem remove_zero_keeps_content {T : Type} (dflt : T)
    (s : gap_buffer T) (i : Z) :
  wf s -> 0 <= i <= size s ->
  exists s',
    remove dflt i 0 s = Some s'
    /\ view s' = view s
    /\ size s' = size s
    /\ buf_size s' = buf_size s
    /\ fst (gap_id s') = i
    /\ (i = fst (gap_id s) -> s' = s).
Proof.
  intros Hwf Hi.
  destruct (remove_spec dflt i 0 s Hwf Hi)
    as (s' & E & Hwf' & Hlen & Hgb & Hv); [lia|].
  simpl in Hgb. destruct (decide (0 >= 0)) as [_|]; [|lia].
  replace (i + Z.min 0 (size s - i)) with i in Hv by lia.
  rewrite take_drop in Hv.
  exists s'. split; [done|]. split; [done|].
  split; [by rewrite !size_view, Hv by done|].
  split; [unfold buf_size; by rewrite Hlen|]. split; [done|].
  intros ->. revert E. unfold remove, move_cursor_to, gap_id.
  destruct s as [b [gb ge]]. destruct Hwf as (G0 & G1 & G2).
  unfold size, gap_size, gap_id, buf_size in *. simpl in *.
  rewrite decide_True by lia.
  replace (gb + Z.min 0 (Z.of_nat (length b) - (ge - gb) - gb))
    with gb by lia.
  replace (- Z.min 0 (Z.of_nat (length b) - (ge - gb) - gb)) with 0 by lia.
  unfold advance. simpl. intros [= <-]. do 2 f_equal. lia.
Qed.

Lemma remove_zero_keeps_content_witness :
  exists s',
    remove NUL 0 0 buf_ab = Some s'
    /\ view s' = view buf_ab
    /\ size s' = size buf_ab
    /\ buf_size s' = buf_size buf_ab
    /\ fst (gap_id s') = 0
    /\ (0 = fst (gap_id buf_ab) -> s' = buf_ab).
Proof.
  apply (remove_zero_keeps_content NUL buf_ab 0);
    [unfold wf, buf_size; simpl; lia | rewrite size_buf_ab; lia].
Defined.

(** C9. After [insert(index, data)] with [0 <= index <= size()] the
    cursor is [index + |data|], and a cursor-form insert issued next puts
    its data directly after the run just inserted. *)
Theorem insert_leaves_cursor_after_run {T : Type} (dflt : T)
    (s : gap_buffer T) (index : Z) (data : list T) :
  wf s -> 0 <= index <= size s ->
  exists s',
    insert dflt index data s = Some s'
    /\ fst (gap_id s') = index + Z.of_nat (length data)
    /\ forall data2,
         exists s'',
           insert_cursor dflt data2 s' = Some s''
           /\ view s'' = take (Z.to_nat index) (view s) ++ data ++ data2
                         ++ drop (Z.to_nat index) (view s).
Proof.
  intros Hwf Hi.
  destruct (insert_spec dflt index data s Hwf Hi)
    as (s' & E & Hwf' & Hgb & Hv).
  exists s'. split; [done|]. split; [done|]. intros data2.
  pose proof (insert_size dflt index data s Hwf Hi s' E) as Hsz'.
  pose proof (size_view s Hwf) as Hsz.
  unfold insert_cursor, gap_id. rewrite Hgb.
  destruct (insert_spec dflt (index + Z.of_nat (length data)) data2 s' Hwf')
    as (s'' & E' & _ & _ & Hv'); [lia|].
  exists s''. split; [done|]. rewrite Hv', Hv.
  assert (Hl : length (take (Z.to_nat index) (view s)) = Z.to_nat index)
    by (rewrite length_take; lia).
  rewrite !app_assoc.
  rewrite take_app_length' by (rewrite length_app; lia).
  rewrite drop_app_length' by (rewrite length_app; lia).
  by rewrite <- !app_assoc.
Qed.

Lemma insert_leaves_cursor_after_run_witness :
  exists s',
    insert NUL 1 (chars "xy") buf_ab_gap_first = Some s'
    /\ fst (gap_id s') = 1 + Z.of_nat (length (chars "xy"))
    /\ forall data2,
         exists s'',
           insert_cursor NUL data2 s' = Some s''
           /\ view s'' = take (Z.to_nat 1) (view buf_ab_gap_first)
                         ++ chars "xy" ++ data2
                         ++ drop (Z.to_nat 1) (view buf_ab_gap_first).
Proof.
  apply (insert_leaves_cursor_after_run NUL buf_ab_gap_first 1 (chars "xy"));
    [unfold wf, buf_size; simpl; lia | vm_compute; split; discriminate].
Defined.

(** C10. [remove] never changes the length of the store: for an index in
    [[0, size()]] and either sign of the count, the amount of growth that
    the cursor relocation asks for is not positive in either direction,
    and the store that [remove] returns is as long as before. *)
Theorem remove_keeps_store_length {T : Type} (dflt : T)
    (s : gap_buffer T) (index count : Z) :
  wf s -> 0 <= index <= size s ->
  let target := if decide (count >= 0)
                then index + Z.min count (size s - index) else index in
  let '(gb, ge) := gap_id s in
  (ge + (target - gb) - buf_size s <= 0)
  /\ ((gb - target) - gb <= 0)
  /\ (exists s1, move_cursor_to dflt target s = Some s1
                 /\ buf_size s1 = buf_size s)
  /\ exists s', remove dflt index count s = Some s'
                /\ buf_size s' = buf_size s.
Proof.
  intros Hwf Hi target.
  assert (Ht : 0 <= target <= size s)
    by (subst target; destruct (decide (count >= 0)); lia).
  destruct (move_cursor_to_spec dflt target s Hwf Ht) as (b1 & E1 & Hl1 & _).
  destruct (remove_total dflt index count s Hwf Hi) as (s' & E & Hl).
  destruct s as [b [gb ge]]. destruct Hwf as (G0 & G1 & G2).
  unfold gap_id, size, gap_size, buf_size in *. simpl in *.
  split; [lia|]. split; [lia|]. split.
  - eexists. split; [exact E1|]. simpl. by rewrite Hl1.
  - exists s'. split; [done|]. by rewrite Hl.
Qed.

Lemma remove_keeps_store_length_witness :
  (2 + (1 - 0) - buf_size buf_ab_gap_first <= 0)
  /\ ((0 - 1) - 0 <= 0)
  /\ (exists s1, move_cursor_to NUL 1 buf_ab_gap_first = Some s1
                 /\ buf_size s1 = buf_size buf_ab_gap_first)
  /\ exists s', remove NUL 1 (-5) buf_ab_gap_first = Some s'
                /\ buf_size s' = buf_size buf_ab_gap_first.
Proof.
  apply (remove_keeps_store_length NUL buf_ab_gap_first 1 (-5));
    [unfold wf, buf_size; simpl; lia | vm_compute; split; discriminate].
Defined.

(** ** Further properties of the operations *)

Section MoreFacts.
Context {T : Type} (dflt : T).
Implicit Types (s : gap_buffer T) (data : list T).

Lemma copy_from_length data : forall (o : Z) (b b' : list T),
  copy_from data o b = Some b' -> length b' = length b.
Proof.
  induction data as [|x data IH]; intros o b b'; simpl.
  - by intros [= <-].
  - intros H. apply bind_Some in H as (b1 & Hw & H).
    unfold wr in Hw. destruct (decide _); [|done].
    injection Hw as <-. rewrite (IH _ _ _ H). apply length_insert.
Qed.

(** The length of the store after [insert]: growth is requested for
    every non-empty [data], whatever room the gap has. *)
Lemma insert_buf_size index data s s' :
  wf s -> 0 <= index <= size s ->
  insert dflt index data s = Some s' ->
  buf_size s'
  = if decide (Z.of_nat (length data) <= 0) then buf_size s
    else 2 * Z.max (Z.of_nat (length data)) (buf_size s).
Proof.
  intros Hwf Hi. unfold insert. rewrite decide_True by lia.
  destruct (enlarge_spec dflt (Z.of_nat (length data)) s Hwf)
    as (s1 & E1 & Hwf1 & Hv1 & _ & _).
  assert (Hb1 : buf_size s1
    = if decide (Z.of_nat (length data) <= 0) then buf_size s
      else 2 * Z.max (Z.of_nat (length data)) (buf_size s)).
  { destruct (decide _) as [Hn|Hn].
    - rewrite enlarge_noop in E1 by done. by injection E1 as <-.
    - destruct (enlarge_grow dflt (Z.of_nat (length data)) s Hwf)
        as (b' & E & Hlen & _); [lia|].
      rewrite E in E1. injection E1 as <-. by unfold buf_size. }
  rewrite E1. simpl.
  assert (Hi1 : 0 <= index <= size s1)
    by (rewrite size_view, Hv1, <- size_view by done; lia).
  destruct (move_cursor_to_spec dflt index s1 Hwf1 Hi1)
    as (b2 & -> & Hlen & _). simpl.
  intros H. apply bind_Some in H as (b3 & Hcp & [= <-]).
  apply copy_from_length in Hcp.
  rewrite <- Hb1. unfold buf_size. simpl. by rewrite Hcp, Hlen.
Qed.


Lemma remove_spec_nonneg index count s :
  wf s -> 0 <= index <= size s -> 0 <= count ->
  let k := Z.min count (size s - index) in
  exists s',
    remove dflt index count s = Some s'
    /\ wf s'
    /\ buf_size s' = buf_size s
    /\ fst (_gap s') = index
    /\ view s' = take (Z.to_nat index) (view s)
                 ++ drop (Z.to_nat (index + k)) (view s).
Proof.
  intros Hwf Hi Hc k.
  destruct (remove_spec dflt index count s Hwf Hi)
    as (s' & E & Hwf' & Hlen & Hgb & Hv); [lia|].
  rewrite decide_True in Hgb by lia. rewrite !decide_True in Hv by lia.
  exists s'. split; [done|]. split; [done|].
  split; [unfold buf_size; by rewrite Hlen|]. by split.
Qed.

Lemma remove_spec_neg index count s :
  wf s -> 0 <= index <= size s -> count < 0 ->
  INT64_MIN < count \/ - count <= index ->
  let k := Z.min (- count) index in
  exists s',
    remove dflt index count s = Some s'
    /\ wf s'
    /\ buf_size s' = buf_size s
    /\ fst (_gap s') = index - k
    /\ view s' = take (Z.to_nat (index - k)) (view s)
                 ++ drop (Z.to_nat index) (view s).
Proof.
  intros Hwf Hi Hc Hok k.
  destruct (remove_spec dflt index count s Hwf Hi)
    as (s' & E & Hwf' & Hlen & Hgb & Hv); [lia|].
  rewrite !decide_False in Hgb by lia. rewrite !decide_False in Hv by lia.
  fold k in Hgb, Hv.
  replace (index - k + k) with index in Hv by lia.
  exists s'. split; [done|]. split; [done|].
  split; [unfold buf_size; by rewrite Hlen|]. by split.
Qed.
End MoreFacts.

(** X1. Cursor relocation: [move_cursor_to(index)] with
    [0 <= index <= size()] puts the gap at [index] with its size
    unchanged, keeps the length of the store and the invariant, and does
    not change the logical content. *)
Theorem move_cursor_to_keeps_content {T : Type} (dflt : T)
    (s : gap_buffer T) (index : Z) :
  wf s -> 0 <= index <= size s ->
  exists s',
    move_cursor_to dflt index s = Some s'
    /\ gap_id s' = (index, index + gap_size s)
    /\ buf_size s' = buf_size s
    /\ wf s'
    /\ view s' = view s.
Proof.
  intros Hwf Hi.
  destruct (move_cursor_to_spec dflt index s Hwf Hi)
    as (b' & E & Hlen & Htake & Hdrop).
  eexists. split; [exact E|]. split; [done|].
  destruct Hwf as (G0 & G1 & G2).
  unfold wf, view, gap_id, size, gap_size, buf_size in *. simpl.
  split; [by rewrite Hlen|]. split; [lia|].
  fold (view s) in *. rewrite Htake, Hdrop. apply take_drop.
Qed.

Lemma move_cursor_to_keeps_content_witness :
  exists s',
    move_cursor_to NUL 1 buf_ab = Some s'
    /\ gap_id s' = (1, 1 + gap_size buf_ab)
    /\ buf_size s' = buf_size buf_ab
    /\ wf s'
    /\ view s' = view buf_ab.
Proof.
  apply (move_cursor_to_keeps_content NUL buf_ab 1);
    [unfold wf, buf_size; simpl; lia | rewrite size_buf_ab; lia].
Defined.

(** X2. [push_front(data)] puts [data] before the content and
    [push_back(data)] after it. *)
Theorem push_front_back_content {T : Type} (dflt : T)
    (s : gap_buffer T) (data : list T) :
  wf s ->
  (exists s1, push_front dflt data s = Some s1
              /\ view s1 = data ++ view s)
  /\ (exists s2, push_back dflt data s = Some s2
                 /\ view s2 = view s ++ data).
Proof.
  intros Hwf. pose proof (size_view s Hwf) as Hsz.
  unfold push_front, push_back. split.
  - destruct (insert_spec dflt 0 data s Hwf) as (s1 & E & _ & _ & Hv);
      [lia|].
    exists s1. split; [done|]. by rewrite Hv.
  - destruct (insert_spec dflt (size s) data s Hwf) as (s2 & E & _ & _ & Hv);
      [lia|].
    exists s2. split; [done|].
    by rewrite Hv, take_ge, drop_ge, app_nil_r by lia.
Qed.

Lemma push_front_back_content_witness :
  (exists s1, push_front NUL (chars "xy") buf_ab_gap_first = Some s1
              /\ view s1 = chars "xy" ++ view buf_ab_gap_first)
  /\ (exists s2, push_back NUL (chars "xy") buf_ab_gap_first = Some s2
                 /\ view s2 = view buf_ab_gap_first ++ chars "xy").
Proof.
  apply (push_front_back_content NUL buf_ab_gap_first (chars "xy")).
  unfold wf, buf_size; simpl; lia.
Defined.

(** X3. [size()] is the number of elements that [view()] yields, and
    [empty()] holds exactly when [view()] yields nothing. *)
Theorem size_counts_view {T : Type} (s : gap_buffer T) :
  wf s ->
  size s = Z.of_nat (length (view s))
  /\ (empty s = true <-> view s = []).
Proof.
  intros Hwf. pose proof (size_view s Hwf) as Hsz. split; [done|].
  unfold empty. rewrite bool_decide_eq_true, Hsz. split.
  - intros H. apply length_zero_iff_nil. lia.
  - by intros ->.
Qed.

Lemma size_counts_view_witness :
  size buf_ab_gap_first = Z.of_nat (length (view buf_ab_gap_first))
  /\ (empty buf_ab_gap_first = true <-> view buf_ab_gap_first = []).
Proof.
  apply (size_counts_view buf_ab_gap_first).
  unfold wf, buf_size; simpl; lia.
Defined.

(** X4. [insert] asks for growth whenever [data] is not empty, whatever
    room the gap has: the store then has length
    [2 * max(|data|, old length)].  With empty [data] the length of the
    store is unchanged. *)
Theorem insert_store_length {T : Type} (dflt : T)
    (s : gap_buffer T) (index : Z) (data : list T) :
  wf s -> 0 <= index <= size s ->
  exists s',
    insert dflt index data s = Some s'
    /\ (data = [] -> buf_size s' = buf_size s)
    /\ (data <> [] ->
        buf_size s' = 2 * Z.max (Z.of_nat (length data)) (buf_size s)).
Proof.
  intros Hwf Hi.
  destruct (insert_spec dflt index data s Hwf Hi) as (s' & E & _).
  pose proof (insert_buf_size dflt index data s s' Hwf Hi E) as Hb.
  exists s'. split; [done|]. split.
  - intros ->. by rewrite Hb.
  - intros Hne. rewrite Hb. destruct data; [done|].
    by rewrite decide_False by (simpl; lia).
Qed.

Lemma insert_store_length_witness :
  exists s',
    insert NUL 1 (chars "x") buf_ab = Some s'
    /\ (chars "x" = [] -> buf_size s' = buf_size buf_ab)
    /\ (chars "x" <> [] ->
        buf_size s'
        = 2 * Z.max (Z.of_nat (length (chars "x"))) (buf_size buf_ab)).
Proof.
  apply (insert_store_length NUL buf_ab 1 (chars "x"));
    [unfold wf, buf_size; simpl; lia | rewrite size_buf_ab; lia].
Defined.



(** X6. [remove_prefix(count)], for a count other than [INT64_MIN],
    drops the first [min(count, size())] elements and leaves the cursor
    at 0; a negative count drops nothing. *)
Theorem remove_prefix_law {T : Type} (dflt : T)
    (s : gap_buffer T) (count : Z) :
  wf s -> INT64_MIN < count ->
  exists s',
    remove_prefix dflt count s = Some s'
    /\ view s' = drop (Z.to_nat (Z.min count (size s))) (view s)
    /\ fst (gap_id s') = 0.
Proof.
  intros Hwf Hmin. pose proof (size_view s Hwf) as Hsz.
  unfold remove_prefix.
  unfold gap_id. destruct (decide (0 <= count)) as [Hc|Hc].
  - destruct (remove_spec_nonneg dflt 0 count s Hwf)
      as (s' & E & _ & _ & Hgb & Hv); [lia..|].
    exists s'. split; [done|]. split; [|done].
    rewrite Hv. simpl. do 2 f_equal. lia.
  - destruct (remove_spec_neg dflt 0 count s Hwf)
      as (s' & E & _ & _ & Hgb & Hv); [lia..|].
    exists s'. split; [done|]. split; [|lia].
    rewrite Hv.
    replace (Z.to_nat (0 - Z.min (- count) 0)) with 0%nat by lia.
    by replace (Z.to_nat (Z.min count (size s))) with 0%nat by lia.
Qed.

Lemma remove_prefix_law_witness :
  exists s',
    remove_prefix NUL 1 buf_ab = Some s'
    /\ view s' = drop (Z.to_nat (Z.min 1 (size buf_ab))) (view buf_ab)
    /\ fst (gap_id s') = 0.
Proof.
  apply (remove_prefix_law NUL buf_ab 1);
    [unfold wf, buf_size; simpl; lia | unfold INT64_MIN; lia].
Defined.

(** X7. [remove_suffix(count)], for an [int64_t] count other than
    [INT64_MIN], drops the last [min(count, size())] elements and leaves
    the cursor at the new end; a count that is zero or negative drops
    nothing. *)
Theorem remove_suffix_law {T : Type} (dflt : T)
    (s : gap_buffer T) (count : Z) :
  wf s -> INT64_MIN < count <= INT64_MAX ->
  let k := Z.max 0 (Z.min count (size s)) in
  exists s',
    remove_suffix dflt count s = Some s'
    /\ view s' = take (Z.to_nat (size s - k)) (view s)
    /\ fst (gap_id s') = size s - k.
Proof.
  intros Hwf Hrange k. pose proof (size_view s Hwf) as Hsz.
  unfold remove_suffix. rewrite neg64_eq by lia.
  assert (Hneg : INT64_MIN < - count)
    by (unfold INT64_MIN, INT64_MAX in *; lia).
  unfold gap_id. destruct (decide (0 <= - count)) as [Hc|Hc].
  - destruct (remove_spec_nonneg dflt (size s) (- count) s Hwf)
      as (s' & E & _ & _ & Hgb & Hv); [lia..|].
    exists s'. split; [done|]. assert (k = 0) as -> by lia.
    rewrite Hv, Hgb, drop_ge, app_nil_r by lia.
    split; [do 2 f_equal|]; lia.
  - destruct (remove_spec_neg dflt (size s) (- count) s Hwf)
      as (s' & E & _ & _ & Hgb & Hv); [lia..|].
    exists s'. split; [done|].
    assert (Z.min (- - count) (size s) = k) as Hk by lia.
    rewrite Hk in Hgb, Hv.
    by rewrite Hv, Hgb, drop_ge, app_nil_r by lia.
Qed.

Lemma remove_suffix_law_witness :
  exists s',
    remove_suffix NUL 1 buf_ab_gap_first = Some s'
    /\ view s' = take (Z.to_nat (size buf_ab_gap_first
                                 - Z.max 0 (Z.min 1 (size buf_ab_gap_first))))
                   (view buf_ab_gap_first)
    /\ fst (gap_id s')
       = size buf_ab_gap_first - Z.max 0 (Z.min 1 (size buf_ab_gap_first)).
Proof.
  apply (remove_suffix_law NUL buf_ab_gap_first 1);
    [unfold wf, buf_size; simpl; lia | unfold INT64_MIN, INT64_MAX; lia].
Defined.

(** X8. In the documented revision [remove_suffix(count)] is
    [remove(size() - 1, -count)]: on a non-empty buffer, for an [int64_t]
    count other than [INT64_MIN], a positive count drops the last
    [min(count, size())] elements, a zero count drops nothing and a
    negative count drops exactly the last element; on an empty buffer the
    index is -1, against [[assume(index >= 0)]]. *)
Theorem V2_remove_suffix_law {T : Type} (dflt : T)
    (s : gap_buffer T) (count : Z) :
  wf s ->
  (size s = 0 -> V2.remove_suffix dflt count s = None)
  /\ (0 < size s -> INT64_MIN < count <= INT64_MAX ->
      let k := if decide (0 <= count) then Z.min count (size s) else 1 in
      exists s',
        V2.remove_suffix dflt count s = Some s'
        /\ view s' = take (Z.to_nat (size s - k)) (view s)).
Proof.
  intros Hwf. pose proof (size_view s Hwf) as Hsz.
  split.
  - intros Hz. unfold V2.remove_suffix, V2.remove.
    by rewrite decide_False by lia.
  - intros Hpos Hrange k. unfold V2.remove_suffix, V2.remove.
    rewrite decide_True by lia. rewrite (neg64_eq count) by lia.
    destruct (decide (- count >= 0)) as [Hc|Hc]; cbv zeta.
    + destruct (remove_run dflt
                  (size s - 1 + Z.min (- count) (size s - (size s - 1)))
                  (Z.min (- count) (size s - (size s - 1))) s Hwf)
        as (s' & E & _ & _ & _ & Hv); [lia..|].
      exists s'. split; [done|]. rewrite Hv. subst k.
      destruct (decide (0 <= count)) as [H0|H0].
      * transitivity (view s); [|symmetry; apply take_ge; lia].
        rewrite <- (take_drop (Z.to_nat (size s - 1)) (view s)) at 3.
        f_equal; f_equal; lia.
      * rewrite drop_ge, app_nil_r by lia. do 2 f_equal. lia.
    + rewrite (neg64_eq (- count))
        by (unfold INT64_MIN, INT64_MAX in *; lia).
      rewrite (neg64_eq (Z.min _ _)) by (unfold INT64_MIN; lia).
      destruct (remove_run dflt (size s - 1 + 1)
                  (Z.min (- - count) (size s - 1 + 1)) s Hwf)
        as (s' & E & _ & _ & _ & Hv); [lia..|].
      exists s'. split; [done|]. rewrite Hv. subst k.
      rewrite decide_True by lia.
      rewrite drop_ge, app_nil_r by lia. do 2 f_equal. lia.
Qed.

Lemma V2_remove_suffix_law_witness :
  (size buf_ab = 0 -> V2.remove_suffix NUL (-3) buf_ab = None)
  /\ (0 < size buf_ab ->
      exists s',
        V2.remove_suffix NUL (-3) buf_ab = Some s'
        /\ view s' = take (Z.to_nat (size buf_ab - 1)) (view buf_ab)).
Proof.
  assert (Hwf : wf buf_ab) by (unfold wf, buf_size; simpl; lia).
  destruct (V2_remove_suffix_law NUL buf_ab (-3) Hwf) as [H0 H1].
  split; [exact H0|]. intros Hpos.
  apply H1; [exact Hpos | unfold INT64_MIN, INT64_MAX; lia].
Defined.

(** X9. In the documented revision, [remove(index, count)] with a
    negative count other than [INT64_MIN] and [0 <= index < size()]
    removes the run
    [(index + count, index]], clamped at the start: the
    [k = min(|count|, index + 1)] elements that end with the element at
    [index]; the cursor is left at [index + 1 - k]. *)
Theorem V2_remove_neg_law {T : Type} (dflt : T)
    (s : gap_buffer T) (index count : Z) :
  wf s -> 0 <= index < size s -> INT64_MIN < count < 0 ->
  let k := Z.min (Z.abs count) (index + 1) in
  exists s',
    V2.remove dflt index count s = Some s'
    /\ view s' = take (Z.to_nat (index + 1 - k)) (view s)
                 ++ drop (Z.to_nat (index + 1)) (view s)
    /\ size s' = size s - k
    /\ fst (gap_id s') = index + 1 - k.
Proof.
  intros Hwf Hi Hc k. unfold V2.remove.
  rewrite decide_True, decide_False by lia. cbv zeta.
  rewrite (neg64_eq count) by lia.
  replace (Z.min (- count) (index + 1)) with k by (unfold k; lia).
  rewrite (neg64_eq k) by (unfold k, INT64_MIN; lia).
  destruct (remove_run dflt (index + 1) k s Hwf)
    as (s' & E & Hwf' & _ & Hgb & Hv); [lia..|].
  pose proof (size_view s Hwf) as Hsz.
  exists s'. split; [done|]. split; [done|]. split; [|done].
  rewrite (size_view s'), Hv by done.
  rewrite length_app, length_take, length_drop. lia.
Qed.

Lemma V2_remove_neg_law_witness :
  exists s',
    V2.remove NUL 1 (-1) buf_ab = Some s'
    /\ view s' = take (Z.to_nat (1 + 1 - Z.min (Z.abs (-1)) (1 + 1)))
                   (view buf_ab)
                 ++ drop (Z.to_nat (1 + 1)) (view buf_ab)
    /\ size s' = size buf_ab - Z.min (Z.abs (-1)) (1 + 1)
    /\ fst (gap_id s') = 1 + 1 - Z.min (Z.abs (-1)) (1 + 1).
Proof.
  apply (V2_remove_neg_law NUL buf_ab 1 (-1));
    [unfold wf, buf_size; simpl; lia | rewrite size_buf_ab; lia
    | unfold INT64_MIN; lia].
Defined.

(** X10. In the revision whose [remove] ends in [remove<true>(count)],
    the two assertions of that helper hold for every index in
    [[0, size()]] and every count other than [INT64_MIN]: the call
    succeeds and returns what the revision with [_gap.advance] returns.
    At [INT64_MIN] the clamped count is [INT64_MIN] and
    [assert(count >= 0)] fails. *)
Theorem V1_remove_asserts_hold {T : Type} (dflt : T)
    (s : gap_buffer T) (index count : Z) :
  wf s -> 0 <= index <= size s -> INT64_MIN < count ->
  (exists s',
     V1.remove dflt index count s = Some s'
     /\ remove dflt index count s = Some s')
  /\ V1.remove dflt index INT64_MIN s = None.
Proof.
  intros Hwf Hi Hmin. split; [|by apply V1_remove_int64_min].
  destruct (remove_spec dflt index count s Hwf Hi) as (s' & E & _); [lia|].
  exists s'. split; [|done]. by rewrite V1_remove_agrees.
Qed.

Lemma V1_remove_asserts_hold_witness :
  (exists s',
     V1.remove NUL 2 (-5) buf_ab = Some s'
     /\ remove NUL 2 (-5) buf_ab = Some s')
  /\ V1.remove NUL 2 INT64_MIN buf_ab = None.
Proof.
  apply (V1_remove_asserts_hold NUL buf_ab 2 (-5));
    [unfold wf, buf_size; simpl; lia | rewrite size_buf_ab; lia
    | unfold INT64_MIN; lia].
Defined.

(** X11. [remove] does not check its index.  With an index beyond
    [size()] and a non-negative count, the clamped count
    [size() - index] is negative, and [_gap.advance] then moves the
    beginning of the gap forward: nothing is removed, and
    [min(index - size(), gap size)] elements of the store that lay in the
    gap are appended to the content. *)
Theorem remove_past_end_exposes_gap {T : Type} (dflt : T)
    (s : gap_buffer T) (index count : Z) :
  wf s -> size s < index -> 0 <= count ->
  exists s',
    remove dflt index count s = Some s'
    /\ wf s'
    /\ buf_size s' = buf_size s
    /\ size s' = size s + Z.min (index - size s) (gap_size s)
    /\ take (Z.to_nat (size s)) (view s') = view s.
Proof.
  intros Hwf Hi Hc. pose proof (size_view s Hwf) as Hsz.
  pose proof Hwf as (G0 & G1 & G2).
  unfold remove. rewrite decide_True by lia.
  replace (Z.min count (size s - index)) with (size s - index) by lia.
  replace (index + (size s - index)) with (size s) by lia.
  destruct (move_cursor_to_spec dflt (size s) s Hwf)
    as (b1 & -> & Hlen & Htake & _); [unfold size, gap_size in *; lia|].
  cbn -[advance]. unfold advance. rewrite decide_False by lia.
  eexists. split; [reflexivity|].
  rewrite (take_ge (view s)) in Htake by lia.
  unfold wf, size, gap_size, buf_size, view, gap_id in *. simpl.
  fold (view s) in *. rewrite Hlen.
  split; [lia|]. split; [done|]. split; [lia|].
  rewrite take_app_le by (rewrite length_take; lia).
  rewrite take_take, <- Htake. f_equal. lia.
Qed.

Lemma remove_past_end_exposes_gap_witness :
  exists s',
    remove NUL 5 0 buf_ab = Some s'
    /\ wf s'
    /\ buf_size s' = buf_size buf_ab
    /\ size s' = size buf_ab + Z.min (5 - size buf_ab) (gap_size buf_ab)
    /\ take (Z.to_nat (size buf_ab)) (view s') = view buf_ab.
Proof.
  apply (remove_past_end_exposes_gap NUL buf_ab 5 0);
    [unfold wf, buf_size; simpl; lia | rewrite size_buf_ab; lia | lia].
Defined.

(** X12. The revision whose [remove] ends in [remove<true>(count)] stops
    that call: with an index beyond [size()] and a non-negative count,
    [assert(count >= 0)] fails on the clamped count. *)
Theorem V1_remove_past_end_asserts {T : Type} (dflt : T)
    (s : gap_buffer T) (index count : Z) :
  wf s -> size s < index -> 0 <= count ->
  V1.remove dflt index count s = None.
Proof.
  intros Hwf Hi Hc. pose proof Hwf as (G0 & G1 & G2).
  unfold V1.remove. rewrite decide_True by lia.
  replace (Z.min count (size s - index)) with (size s - index) by lia.
  replace (index + (size s - index)) with (size s) by lia.
  destruct (move_cursor_to_spec dflt (size s) s Hwf)
    as (b1 & -> & _); [unfold size, gap_size in *; lia|].
  cbn. unfold V1.remove_left, gap_id. simpl.
  by rewrite decide_False by lia.
Qed.

Lemma V1_remove_past_end_asserts_witness :
  V1.remove NUL 5 0 buf_ab = None.
Proof.
  apply (V1_remove_past_end_asserts NUL buf_ab 5 0);
    [unfold wf, buf_size; simpl; lia | rewrite size_buf_ab; lia | lia].
Defined.

(** X13. On an empty buffer [front()] and [back()] dereference an
    iterator outside the store, in either revision of [front()]. *)
Theorem front_back_on_empty {T : Type} (s : gap_buffer T) :
  wf s -> size s = 0 ->
  front s = None /\ back s = None /\ V2.front s = None.
Proof.
  destruct s as [b [gb ge]].
  unfold front, back, V2.front, wf, size, gap_size, gap_id, buf_size.
  simpl. intros (G0 & G1 & G2) Hsz.
  assert (gb = 0) as -> by lia.
  assert (ge = Z.of_nat (length b)) as -> by lia.
  unfold rd. repeat split.
  - destruct (decide _) as [[H| H]|H]; [|done|].
    + rewrite decide_True by lia. apply lookup_ge_None. simpl. lia.
    + rewrite decide_True by lia. apply lookup_ge_None. lia.
  - destruct (decide _) as [H|H]; by rewrite decide_False by lia.
  - destruct (decide _) as [[H| H]|H]; [|done|].
    + rewrite decide_True by lia. apply lookup_ge_None. simpl. lia.
    + rewrite decide_True by lia. apply lookup_ge_None. lia.
Qed.

Lemma front_back_on_empty_witness :
  front (clear buf_ab) = None /\ back (clear buf_ab) = None
  /\ V2.front (clear buf_ab) = None.
Proof.
  apply (front_back_on_empty (clear buf_ab));
    [unfold wf, buf_size; simpl; lia | reflexivity].
Defined.

(** X14. Round trip: what [insert(index, data)] puts in, [remove] takes
    out again, both as [remove(index, |data|)] from the left edge of the
    run and as [remove(index + |data|, -|data|)] from its right edge; the
    content is then what it was before the insert. *)
Theorem insert_remove_round_trip {T : Type} (dflt : T)
    (s : gap_buffer T) (index : Z) (data : list T) :
  wf s -> 0 <= index <= size s ->
  let n := Z.of_nat (length data) in
  exists s1,
    insert dflt index data s = Some s1
    /\ (exists s2, remove dflt index n s1 = Some s2 /\ view s2 = view s)
    /\ (exists s3, remove dflt (index + n) (- n) s1 = Some s3
                   /\ view s3 = view s).
Proof.
  intros Hwf Hi n. pose proof (size_view s Hwf) as Hsz.
  destruct (insert_spec dflt index data s Hwf Hi)
    as (s1 & E & Hwf1 & _ & Hv1).
  pose proof (insert_size dflt index data s Hwf Hi s1 E) as Hsz1.
  fold n in Hsz1.
  assert (Hl : length (take (Z.to_nat index) (view s)) = Z.to_nat index)
    by (rewrite length_take; lia).
  assert (Hleft : take (Z.to_nat index) (view s1)
                  = take (Z.to_nat index) (view s)).
  { rewrite Hv1, take_app_le by lia. rewrite take_take. f_equal. lia. }
  assert (Hright : drop (Z.to_nat (index + n)) (view s1)
                   = drop (Z.to_nat index) (view s)).
  { rewrite Hv1, app_assoc.
    by rewrite drop_app_length' by (rewrite length_app; lia). }
  exists s1. split; [done|]. split.
  - destruct (remove_spec_nonneg dflt index n s1 Hwf1)
      as (s2 & E2 & _ & _ & _ & Hv2); [lia..|].
    exists s2. split; [done|].
    replace (index + Z.min n (size s1 - index)) with (index + n) in Hv2
      by lia.
    by rewrite Hv2, Hleft, Hright, take_drop.
  - destruct (decide (n = 0)) as [Hn|Hn].
    + destruct (remove_spec_nonneg dflt (index + n) (- n) s1 Hwf1)
        as (s3 & E3 & _ & _ & _ & Hv3); [lia..|].
      exists s3. split; [done|].
      replace (index + n + Z.min (- n) (size s1 - (index + n)))
        with (index + n) in Hv3 by lia.
      rewrite Hv3, Hright.
      replace (index + n) with index by lia.
      by rewrite Hleft, take_drop.
    + destruct (remove_spec_neg dflt (index + n) (- n) s1 Hwf1)
        as (s3 & E3 & _ & _ & _ & Hv3); [lia..|].
      exists s3. split; [done|].
      replace (index + n - Z.min (- - n) (index + n)) with index in Hv3
        by lia.
      by rewrite Hv3, Hleft, Hright, take_drop.
Qed.

Lemma insert_remove_round_trip_witness :
  exists s1,
    insert NUL 1 (chars "xy") buf_ab = Some s1
    /\ (exists s2, remove NUL 1 (Z.of_nat (length (chars "xy"))) s1 = Some s2
                   /\ view s2 = view buf_ab)
    /\ (exists s3,
          remove NUL (1 + Z.of_nat (length (chars "xy")))
            (- Z.of_nat (length (chars "xy"))) s1 = Some s3
          /\ view s3 = view buf_ab).
Proof.
  apply (insert_remove_round_trip NUL buf_ab 1 (chars "xy"));
    [unfold wf, buf_size; simpl; lia | rewrite size_buf_ab; lia].
Defined.

(** X15. Deletion is gap growth: [remove] with an index in
    [[0, size()]] and a count other than [INT64_MIN] keeps the length of
    the store, widens the gap by the clamped count and leaves the cursor
    at the left edge of the removed run. *)
Theorem remove_widens_gap {T : Type} (dflt : T)
    (s : gap_buffer T) (index count : Z) :
  wf s -> 0 <= index <= size s -> INT64_MIN < count ->
  let k := if decide (0 <= count) then Z.min count (size s - index)
           else Z.min (- count) index in
  exists s',
    remove dflt index count s = Some s'
    /\ buf_size s' = buf_size s
    /\ gap_size s' = gap_size s + k
    /\ fst (gap_id s') = (if decide (0 <= count) then index else index - k).
Proof.
  intros Hwf Hi Hmin k. pose proof (size_view s Hwf) as Hsz. subst k.
  unfold gap_id. destruct (decide (0 <= count)) as [Hc|Hc].
  - destruct (remove_spec_nonneg dflt index count s Hwf Hi Hc)
      as (s' & E & Hwf' & Hb & Hgb & Hv).
    exists s'. split; [done|]. split; [done|]. split; [|done].
    pose proof (size_view s' Hwf') as Hsz'. rewrite Hv in Hsz'.
    rewrite length_app, length_take, length_drop in Hsz'.
    unfold size in *. lia.
  - destruct (remove_spec_neg dflt index count s Hwf Hi)
      as (s' & E & Hwf' & Hb & Hgb & Hv); [lia..|].
    exists s'. split; [done|]. split; [done|]. split; [|done].
    pose proof (size_view s' Hwf') as Hsz'. rewrite Hv in Hsz'.
    rewrite length_app, length_take, length_drop in Hsz'.
    unfold size in *. lia.
Qed.

Lemma remove_widens_gap_witness :
  exists s',
    remove NUL 1 (-4) buf_ab_gap_first = Some s'
    /\ buf_size s' = buf_size buf_ab_gap_first
    /\ gap_size s' = gap_size buf_ab_gap_first + Z.min (- -4) 1
    /\ fst (gap_id s') = 1 - Z.min (- -4) 1.
Proof.
  apply (remove_widens_gap NUL buf_ab_gap_first 1 (-4));
    [unfold wf, buf_size; simpl; lia | vm_compute; split; discriminate
    | unfold INT64_MIN; lia].
Defined.

(** X16. [back()] returns the last element of the content of every
    non-empty buffer, wherever the gap lies. *)
Theorem back_returns_last {T : Type} (s : gap_buffer T) :
  wf s -> 0 < size s ->
  back s = last (view s) /\ is_Some (back s).
Proof.
  intros Hwf Hsz. pose proof (size_view s Hwf) as Hlen.
  rewrite back_spec by done. split; [done|].
  rewrite last_lookup. apply lookup_lt_is_Some. lia.
Qed.

Lemma back_returns_last_witness :
  back buf_ab_gap_first = last (view buf_ab_gap_first)
  /\ is_Some (back buf_ab_gap_first).
Proof.
  apply (back_returns_last buf_ab_gap_first);
    [unfold wf, buf_size; simpl; lia | by vm_compute].
Defined.

(** X17. In the documented revision [front()] returns the first element
    of the content of every non-empty buffer, wherever the gap lies. *)
Theorem V2_front_returns_first {T : Type} (s : gap_buffer T) :
  wf s -> 0 < size s ->
  V2.front s = head (view s) /\ is_Some (V2.front s).
Proof.
  intros Hwf Hsz. pose proof (size_view s Hwf) as Hlen.
  rewrite V2_front_spec by done. split; [done|].
  rewrite head_lookup. apply lookup_lt_is_Some. lia.
Qed.

Lemma V2_front_returns_first_witness :
  V2.front buf_ab_gap_first = head (view buf_ab_gap_first)
  /\ is_Some (V2.front buf_ab_gap_first).
Proof.
  apply (V2_front_returns_first buf_ab_gap_first);
    [unfold wf, buf_size; simpl; lia | by vm_compute].
Defined.

(** X18. [front()] of the revision that dereferences [_gap.end() + 1]:
    on a non-empty buffer it returns the first element of the content
    when the gap is empty or does not start the store, and otherwise the
    element at logical index 1, which does not exist when the content has
    one element. *)
Theorem front_by_gap_position {T : Type} (s : gap_buffer T) :
  wf s -> 0 < size s ->
  (fst (gap_id s) = snd (gap_id s) \/ fst (gap_id s) <> 0 ->
   front s = head (view s))
  /\ (fst (gap_id s) = 0 -> 0 < snd (gap_id s) ->
      front s = view s !! 1%nat
      /\ (size s = 1 -> front s = None)).
Proof.
  intros Hwf Hsz. pose proof (size_view s Hwf) as Hlen. split.
  - by apply front_first_branch.
  - intros Hgb Hge. rewrite front_gap_first by done. split; [done|].
    intros H1. apply lookup_ge_None. lia.
Qed.

Lemma front_by_gap_position_witness :
  (fst (gap_id buf_a_gap_first) = snd (gap_id buf_a_gap_first)
   \/ fst (gap_id buf_a_gap_first) <> 0 ->
   front buf_a_gap_first = head (view buf_a_gap_first))
  /\ (fst (gap_id buf_a_gap_first) = 0 -> 0 < snd (gap_id buf_a_gap_first) ->
      front buf_a_gap_first = view buf_a_gap_first !! 1%nat
      /\ (size buf_a_gap_first = 1 -> front buf_a_gap_first = None)).
Proof.
  apply (front_by_gap_position buf_a_gap_first);
    [unfold wf, buf_size; simpl; lia | by vm_compute].
Defined.

(** X19. Growth makes room: [enlarge_by_at_least(i)] with [i > 0] at
    least doubles the store, and all the new capacity goes to the gap,
    which therefore gains at least [i] places; the size of the content
    and the invariant are kept. *)
Theorem enlarge_makes_room {T : Type} (dflt : T)
    (s : gap_buffer T) (i : Z) :
  wf s -> 0 < i ->
  exists s',
    enlarge_by_at_least dflt i s = Some s'
    /\ wf s'
    /\ size s' = size s
    /\ gap_size s' = gap_size s + (buf_size s' - buf_size s)
    /\ i <= buf_size s' - buf_size s
    /\ 2 * buf_size s <= buf_size s'.
Proof.
  intros Hwf Hi. pose proof Hwf as (G0 & G1 & G2).
  destruct (enlarge_grow dflt i s Hwf Hi) as (b' & E & Hlen & _).
  eexists. split; [exact E|].
  unfold wf, size, gap_size, buf_size in *. simpl. lia.
Qed.

Lemma enlarge_makes_room_witness :
  exists s',
    enlarge_by_at_least NUL 1 buf_ab = Some s'
    /\ wf s'
    /\ size s' = size buf_ab
    /\ gap_size s' = gap_size buf_ab + (buf_size s' - buf_size buf_ab)
    /\ 1 <= buf_size s' - buf_size buf_ab
    /\ 2 * buf_size buf_ab <= buf_size s'.
Proof.
  apply (enlarge_makes_room NUL buf_ab 1);
    [unfold wf, buf_size; simpl; lia | lia].
Defined.

(** The seventeen checks of the driver's scripted test all succeed. *)
Example test_passes : test = Some (replicate 17 true).
Proof. by vm_compute. Qed.
